(** * sherror: error codes kept in sync with GitHub Discussions

    A shallow embedding of [mod.ts] (class [SherrorClient]) and a
    verification of its documented behaviour: construction, [get],
    [parseGitRemote], [parseDiscussionNumber], [writebackConfig], [sync]
    and [clear].

    Conventions of the embedding.
    - JavaScript strings are [string]s (sequences of bytes, UTF-8).
    - A JavaScript value that may be [undefined] is an [option].
    - [throw] is the left injection of a sum; the exception value keeps the
      constructor ([Error], [TypeError]) and the message.
    - The remote platform, the file system and the console are reached
      through an explicit state; every call that leaves the process is
      recorded in a trace. *)

From Stdlib Require Import ZArith String Ascii List Lia Bool.
From Stdlib Require Import DecimalString DecimalZ DecimalPos.
From stdpp Require Import base option list strings.

Open Scope Z_scope.

(** ** JavaScript values and built-ins used by the client *)

Module JS.

(** Exceptions: [new Error(msg)], and the [TypeError]s raised by the runtime
    itself (a property read on [undefined], an invalid URL). *)
Inductive Exn : Type :=
| Error (message : string)
| TypeError (message : string).

Definition result (A : Type) : Type := Exn + A.
Abbreviation Ok := (@inr Exn _).
Abbreviation Throw := (@inl Exn _).

(** The [number]s the client handles: integers and [NaN]. Integers are kept
    exact (the rounding of IEEE doubles beyond 2^53 is outside the model). *)
Inductive number : Type :=
| NaN
| Num (z : Z).

(** Truthiness of the two kinds of values the client tests. *)
Definition truthy_string (s : string) : bool :=
  match s with
  | EmptyString => false
  | String _ _ => true
  end.

Definition truthy (o : option string) : bool :=
  match o with
  | Some s => truthy_string s
  | None => false
  end.

Definition defined {A : Type} (o : option A) : bool :=
  match o with
  | Some _ => true
  | None => false
  end.

(** [`${z}`] for an integer. *)
Definition string_of_Z (z : Z) : string :=
  NilZero.string_of_int (Z.to_int z).

(** [`${n}`] for a number. *)
Definition string_of_number (n : number) : string :=
  match n with
  | NaN => "NaN"
  | Num z => string_of_Z z
  end.

Definition code (c : ascii) : nat := nat_of_ascii c.

(** The double-quote character, as a string. *)
Definition quote : string := String (ascii_of_nat 34) EmptyString.

Definition in_range (lo hi : nat) (c : ascii) : bool :=
  (lo <=? code c)%nat && (code c <=? hi)%nat.

Definition is_digit (c : ascii) : bool := in_range 48 57 c.
Definition is_upper (c : ascii) : bool := in_range 65 90 c.
Definition is_lower (c : ascii) : bool := in_range 97 122 c.
Definition is_alpha (c : ascii) : bool := is_upper c || is_lower c.
Definition is_alnum (c : ascii) : bool := is_alpha c || is_digit c.

Definition ascii_eqb (a b : ascii) : bool := Ascii.eqb a b.

(** Longest prefix whose characters satisfy [p], and the rest. *)
Fixpoint span (p : ascii -> bool) (s : string) : string * string :=
  match s with
  | EmptyString => (EmptyString, EmptyString)
  | String c r =>
      if p c then let '(a, b) := span p r in (String c a, b)
      else (EmptyString, s)
  end.

Fixpoint drop_while (p : ascii -> bool) (s : string) : string :=
  match s with
  | EmptyString => EmptyString
  | String c r => if p c then drop_while p r else s
  end.

(** Removes the suffix made of characters satisfying [p]. *)
Fixpoint drop_while_end (p : ascii -> bool) (s : string) : string :=
  match s with
  | EmptyString => EmptyString
  | String c r =>
      match drop_while_end p r with
      | EmptyString => if p c then EmptyString else String c EmptyString
      | r' => String c r'
      end
  end.

Fixpoint string_filter (p : ascii -> bool) (s : string) : string :=
  match s with
  | EmptyString => EmptyString
  | String c r => if p c then String c (string_filter p r) else string_filter p r
  end.

Fixpoint string_forall (p : ascii -> bool) (s : string) : bool :=
  match s with
  | EmptyString => true
  | String c r => p c && string_forall p r
  end.

Fixpoint string_map (f : ascii -> ascii) (s : string) : string :=
  match s with
  | EmptyString => EmptyString
  | String c r => String (f c) (string_map f r)
  end.

(** White space of [String.prototype.trim] and of [parseInt], on ASCII:
    TAB, LF, VT, FF, CR and SPACE. *)
Definition is_white_space (c : ascii) : bool :=
  in_range 9 13 c || (code c =? 32)%nat.

(** [s.trim()] *)
Definition trim (s : string) : string :=
  drop_while_end is_white_space (drop_while is_white_space s).

(** [s.startsWith(p)] *)
Fixpoint startsWith (s p : string) {struct p} : bool :=
  match p with
  | EmptyString => true
  | String b p' =>
      match s with
      | String a s' => ascii_eqb a b && startsWith s' p'
      | EmptyString => false
      end
  end.

(** Cuts [s] at every character satisfying [p]: never empty. *)
Fixpoint split_by (p : ascii -> bool) (s : string) : list string :=
  match s with
  | EmptyString => [EmptyString]
  | String c r =>
      if p c then EmptyString :: split_by p r
      else
        match split_by p r with
        | h :: t => String c h :: t
        | [] => [String c EmptyString]
        end
  end.

(** [s.split(sep)] for a one-character separator. *)
Definition split (sep : ascii) (s : string) : list string :=
  split_by (fun c => ascii_eqb c sep) s.

(** [parts.join(sep)] *)
Fixpoint join (sep : string) (parts : list string) : string :=
  match parts with
  | [] => EmptyString
  | [p] => p
  | p :: rest => p +:+ sep +:+ join sep rest
  end.

(** [s.slice(1)] *)
Definition slice1 (s : string) : string :=
  match s with
  | EmptyString => EmptyString
  | String _ r => r
  end.

(** [s.replace(/\.git$/, empty)]: the pattern can only match the last four
    characters. *)
Fixpoint replace_dot_git_end (s : string) : string :=
  match s with
  | EmptyString => EmptyString
  | String c r =>
      if String.eqb s ".git" then EmptyString
      else String c (replace_dot_git_end r)
  end.

(** [/^https?:\/\//.test(s)] *)
Definition test_http_prefix (s : string) : bool :=
  startsWith s "http://" || startsWith s "https://".

(** Value of a string of decimal digits, most significant first. *)
Fixpoint digits_value (acc : Z) (s : string) : Z :=
  match s with
  | EmptyString => acc
  | String c r => digits_value (10 * acc + (Z.of_nat (code c) - 48)) r
  end.

(** [parseInt(s, 10)]: white space, an optional sign, then the longest run of
    decimal digits; [NaN] when that run is empty. *)
Definition parseInt10 (s : string) : number :=
  let s1 := drop_while is_white_space s in
  let '(negative, s2) :=
    match s1 with
    | String "-" r => (true, r)
    | String "+" r => (false, r)
    | _ => (false, s1)
    end in
  match fst (span is_digit s2) with
  | EmptyString => NaN
  | ds => Num (if negative then - digits_value 0 ds else digits_value 0 ds)
  end.

(** Value of a hexadecimal digit. *)
Definition hex_value (c : ascii) : option nat :=
  if is_digit c then Some (code c - 48)%nat
  else if in_range 97 102 c then Some (code c - 87)%nat
  else if in_range 65 70 c then Some (code c - 55)%nat
  else None.

(** Hexadecimal digit of a value below 16, upper or lower case. *)
Definition hex_digit (upper : bool) (n : nat) : ascii :=
  if (n <? 10)%nat then ascii_of_nat (48 + n)
  else ascii_of_nat ((if upper then 55 else 87) + n).

(** [JSON.stringify] of one character of a string (QuoteJSONString). *)
Definition json_escape (c : ascii) : string :=
  match code c with
  | 8 => "\b"
  | 9 => "\t"
  | 10 => "\n"
  | 12 => "\f"
  | 13 => "\r"
  | 34 => String "\" (String c EmptyString)
  | 92 => "\\"
  | n =>
      if (n <? 32)%nat
      then "\u00" +:+ String (hex_digit false (n / 16)) (String (hex_digit false (n mod 16)) EmptyString)
      else String c EmptyString
  end%nat.

Fixpoint json_escape_string (s : string) : string :=
  match s with
  | EmptyString => EmptyString
  | String c r => json_escape c +:+ json_escape_string r
  end.

(** [JSON.stringify(s, null, 2)] for a string [s]. *)
Definition JSON_stringify_string (s : string) : string :=
  quote +:+ json_escape_string s +:+ quote.

End JS.

(** ** The URL class

    [new URL(s).pathname], after the WHATWG URL standard (basic URL parser
    without a base URL, then the pathname getter). A host is percent-decoded
    and checked for emptiness, forbidden code points, its IPv4 or IPv6
    literal and its port. Outside the model: IDNA processing (a domain with
    non-ASCII characters or a punycode label is taken as it is), and the
    Windows drive letter rules of [file:] paths. *)

Module URL.
Import JS.

Definition is_c0_or_space (c : ascii) : bool := (code c <=? 32)%nat.

Definition is_tab_or_newline (c : ascii) : bool :=
  (code c =? 9)%nat || (code c =? 10)%nat || (code c =? 13)%nat.

Definition lower (c : ascii) : ascii :=
  if is_upper c then ascii_of_nat (code c + 32) else c.

Definition is_scheme_char (c : ascii) : bool :=
  is_alnum c || ascii_eqb c "+" || ascii_eqb c "-" || ascii_eqb c ".".

Definition mem (s : string) (l : list string) : bool :=
  existsb (String.eqb s) l.

(** Scheme start state and scheme state: the lower-cased scheme and what
    follows the colon. *)
Definition parse_scheme (s : string) : option (string * string) :=
  match s with
  | String c _ =>
      if is_alpha c then
        match span is_scheme_char s with
        | (scheme, String ":" rest) => Some (string_map lower scheme, rest)
        | _ => None
        end
      else None
  | EmptyString => None
  end.

Definition is_special (scheme : string) : bool :=
  mem scheme ["ftp"; "file"; "http"; "https"; "ws"; "wss"].

Definition is_slash (special : bool) (c : ascii) : bool :=
  ascii_eqb c "/" || (special && ascii_eqb c "\").

Definition is_path_end (c : ascii) : bool :=
  ascii_eqb c "?" || ascii_eqb c "#".

Definition is_authority_end (special : bool) (c : ascii) : bool :=
  is_slash special c || is_path_end c.

(** What follows the last [@] of an authority, when there is one. *)
Fixpoint after_last_at (s : string) : option string :=
  match s with
  | EmptyString => None
  | String c r =>
      match after_last_at r with
      | Some x => Some x
      | None => if ascii_eqb c "@" then Some r else None
      end
  end.

Definition forbidden_host_code_point (c : ascii) : bool :=
  existsb (Nat.eqb (code c)) [0; 9; 10; 13; 32; 35; 47; 58; 60; 62; 63; 64; 91; 92; 93; 94; 124]%nat.

Definition forbidden_domain_code_point (c : ascii) : bool :=
  forbidden_host_code_point c || (code c <=? 31)%nat || (code c =? 37)%nat || (code c =? 127)%nat.

(** Percent-decoding of the bytes of a string. *)
Fixpoint percent_decode (s : string) : string :=
  match s with
  | EmptyString => EmptyString
  | String c r =>
      match r with
      | String h (String l r') =>
          match ascii_eqb c "%", hex_value h, hex_value l with
          | true, Some a, Some b => String (ascii_of_nat (16 * a + b)) (percent_decode r')
          | _, _, _ => String c (percent_decode r)
          end
      | _ => String c (percent_decode r)
      end
  end.

Definition is_hex_digit (c : ascii) : bool := defined (hex_value c).

Definition is_octal_digit (c : ascii) : bool := in_range 48 55 c.

(** Value of a string of digits in a radix up to 16. *)
Fixpoint radix_value (radix acc : Z) (s : string) : Z :=
  match s with
  | EmptyString => acc
  | String c r => radix_value radix (radix * acc + Z.of_nat (default 0%nat (hex_value c))) r
  end.

(** IPv4 number parser: hexadecimal after [0x], octal after [0], else
    decimal. *)
Definition ipv4_number (s : string) : option Z :=
  match s with
  | EmptyString => None
  | String c (String x r) =>
      if ascii_eqb c "0" && (ascii_eqb x "x" || ascii_eqb x "X") then
        if string_forall is_hex_digit r then Some (radix_value 16 0 r) else None
      else if ascii_eqb c "0" then
        if string_forall is_octal_digit (String x r) then Some (radix_value 8 0 (String x r))
        else None
      else if string_forall is_digit s then Some (radix_value 10 0 s) else None
  | _ => if string_forall is_digit s then Some (radix_value 10 0 s) else None
  end.

(** The parts between dots, without the empty part a final dot leaves. *)
Definition without_final_dot (keep_single : bool) (parts : list string) : list string :=
  match last parts with
  | Some EmptyString =>
      if keep_single && (length parts =? 1)%nat then parts else removelast parts
  | _ => parts
  end.

(** Ends-in-a-number checker. *)
Definition ends_in_number (domain : string) : bool :=
  match last (without_final_dot false (split "." domain)) with
  | Some part => (truthy_string part && string_forall is_digit part) || defined (ipv4_number part)
  | None => false
  end.

(** IPv4 parser: at most four numbers, all but the last below 256, the last
    filling the bytes that are left. *)
Definition valid_ipv4 (domain : string) : bool :=
  let parts := without_final_dot true (split "." domain) in
  (length parts <=? 4)%nat
  && match mapM ipv4_number parts with
     | Some numbers =>
         forallb (fun n => n <=? 255) (removelast numbers)
         && match last numbers with
            | Some n => n <? 256 ^ (5 - Z.of_nat (length numbers))
            | None => false
            end
     | None => false
     end.

(** At most [n] characters satisfying [p], and the rest. *)
Fixpoint span_upto (n : nat) (p : ascii -> bool) (s : string) : string * string :=
  match n, s with
  | S n', String c r =>
      if p c then let '(a, b) := span_upto n' p r in (String c a, b)
      else (EmptyString, s)
  | _, _ => (EmptyString, s)
  end.

(** One of the four decimal numbers that may end an IPv6 address. *)
Definition ipv4_piece (s : string) : bool :=
  truthy_string s && string_forall is_digit s
  && match s with
     | String c (String _ _) => negb (ascii_eqb c "0")
     | _ => true
     end
  && (digits_value 0 s <=? 255).

Definition ipv4_in_ipv6 (s : string) : bool :=
  let parts := split "." s in
  (length parts =? 4)%nat && forallb ipv4_piece parts.

(** IPv6 parser, from a piece on: [pieceIndex] pieces are read, [compress]
    tells whether [::] has been seen. Every turn reads at least one
    character. *)
Fixpoint ipv6_pieces (turns : nat) (s : string) (pieceIndex : nat) (compress : bool) : bool :=
  match turns with
  | O => false
  | S turns' =>
      match s with
      | EmptyString => compress || (pieceIndex =? 8)%nat
      | String c r =>
          if (pieceIndex =? 8)%nat then false
          else if ascii_eqb c ":" then
            if compress then false else ipv6_pieces turns' r (S pieceIndex) true
          else
            let '(digits, after) := span_upto 4 is_hex_digit s in
            match after with
            | EmptyString => truthy_string digits && (compress || (S pieceIndex =? 8)%nat)
            | String x after' =>
                if ascii_eqb x "." then
                  truthy_string digits && (pieceIndex <=? 6)%nat && ipv4_in_ipv6 s
                  && (compress || (pieceIndex + 2 =? 8)%nat)
                else if ascii_eqb x ":" then
                  truthy_string digits && truthy_string after'
                  && ipv6_pieces turns' after' (S pieceIndex) compress
                else false
            end
      end
  end.

Definition valid_ipv6 (s : string) : bool :=
  match s with
  | String c r =>
      if ascii_eqb c ":" then
        match r with
        | String c' r' =>
            ascii_eqb c' ":" && ipv6_pieces (S (String.length r')) r' 1 true
        | EmptyString => false
        end
      else ipv6_pieces (S (String.length s)) s 0 false
  | EmptyString => false
  end.

(** What is between the brackets of [s], which opens with a bracket: [s]
    is given without it. *)
Fixpoint before_closing_bracket (s : string) : option string :=
  match s with
  | EmptyString => None
  | String c EmptyString => if ascii_eqb c "]" then Some EmptyString else None
  | String c r => String c <$> before_closing_bracket r
  end.

(** Host parser: whether it succeeds. *)
Definition valid_host (special : bool) (h : string) : bool :=
  match h with
  | String "[" r =>
      match before_closing_bracket r with
      | Some address => valid_ipv6 address
      | None => false
      end
  | _ =>
      if special then
        let domain := percent_decode h in
        string_forall (fun c => negb (forbidden_domain_code_point c)) domain
        && (negb (ends_in_number domain) || valid_ipv4 domain)
      else string_forall (fun c => negb (forbidden_host_code_point c)) h
  end.

(** Host state and port state on the part of the authority after the
    credentials. *)
Definition valid_host_port (special : bool) (hp : string) : bool :=
  let '(h, port) :=
    match hp with
    | String "[" _ =>
        let '(inside, after) := span (fun c => negb (ascii_eqb c "]")) hp in
        match after with
        | String _ after' => (inside +:+ "]", after')
        | EmptyString => (inside, EmptyString)
        end
    | _ => span (fun c => negb (ascii_eqb c ":")) hp
    end in
  match port with
  | EmptyString => (negb special || truthy_string h) && valid_host special h
  | String ":" digits =>
      truthy_string h && valid_host special h && string_forall is_digit digits
      && (digits_value 0 digits <=? 65535)
  | _ => false
  end.

(** Authority state: accepted or not. An [@] must be followed by a host. *)
Definition valid_authority (special : bool) (authority : string) : bool :=
  match after_last_at authority with
  | Some EmptyString => false
  | Some hp => valid_host_port special hp
  | None => valid_host_port special authority
  end.

Definition in_path_percent_encode_set (c : ascii) : bool :=
  (code c <=? 31)%nat || (127 <=? code c)%nat
  || existsb (Nat.eqb (code c)) [32; 34; 35; 60; 62; 63; 94; 96; 123; 125]%nat.

Definition in_c0_percent_encode_set (c : ascii) : bool :=
  (code c <=? 31)%nat || (127 <=? code c)%nat.

Definition percent_encode_byte (c : ascii) : string :=
  String "%" (String (hex_digit true (code c / 16))
                (String (hex_digit true (code c mod 16)) EmptyString)).

Fixpoint percent_encode (set : ascii -> bool) (s : string) : string :=
  match s with
  | EmptyString => EmptyString
  | String c r =>
      (if set c then percent_encode_byte c else String c EmptyString)
      +:+ percent_encode set r
  end.

Definition is_single_dot (segment : string) : bool :=
  mem (string_map lower segment) ["."; "%2e"].

Definition is_double_dot (segment : string) : bool :=
  mem (string_map lower segment) [".."; ".%2e"; "%2e."; "%2e%2e"].

(** Path state: [segments] are the pieces between slashes still to read,
    [path] the URL's path so far. *)
Fixpoint path_state (path segments : list string) : list string :=
  match segments with
  | [] => path
  | segment :: rest =>
      let last := match rest with [] => true | _ => false end in
      let path' :=
        if is_double_dot segment
        then removelast path ++ (if last then [EmptyString] else [])
        else if is_single_dot segment
        then path ++ (if last then [EmptyString] else [])
        else path ++ [percent_encode in_path_percent_encode_set segment] in
      path_state path' rest
  end.

(** The pathname of a URL whose path is a list: every segment after a
    slash. [text] is the input after the slash that opens the path. *)
Definition list_pathname (special : bool) (text : string) : string :=
  let text' := fst (span (fun c => negb (is_path_end c)) text) in
  "/" +:+ join "/" (path_state [] (split_by (is_slash special) text')).

(** Path start state, after an authority. *)
Definition path_start (special : bool) (after : string) : string :=
  match after with
  | String c r =>
      if is_slash special c then list_pathname special r
      else if special then list_pathname special after
      else EmptyString
  | EmptyString => if special then list_pathname special after else EmptyString
  end.

(** Authority state, then the path. *)
Definition authority_then_path (special : bool) (s : string) : option string :=
  let '(authority, after) := span (fun c => negb (is_authority_end special c)) s in
  if valid_authority special authority then Some (path_start special after)
  else None.

Definition is_drive_letter (buffer : string) : bool :=
  match buffer with
  | String a (String b EmptyString) => is_alpha a && (ascii_eqb b ":" || ascii_eqb b "|")
  | _ => false
  end.

(** The states after the scheme. *)
Definition after_scheme (scheme rest : string) : option string :=
  if String.eqb scheme "file" then
    match rest with
    | String c1 r1 =>
        if is_slash true c1 then
          match r1 with
          | String c2 r2 =>
              if is_slash true c2 then
                let '(buffer, after) := span (fun c => negb (is_authority_end true c)) r2 in
                if is_drive_letter buffer then Some (list_pathname true r2)
                else
                  match buffer with
                  | EmptyString => Some (path_start true after)
                  | _ => if valid_host true buffer then Some (path_start true after)
                         else None
                  end
              else Some (list_pathname true r1)
          | EmptyString => Some (list_pathname true r1)
          end
        else Some (list_pathname true rest)
    | EmptyString => Some (list_pathname true rest)
    end
  else if is_special scheme then
    authority_then_path true (drop_while (is_slash true) rest)
  else
    match rest with
    | String "/" (String "/" r) => authority_then_path false r
    | String "/" r => Some (list_pathname false r)
    | _ =>
        Some (percent_encode in_c0_percent_encode_set
                (fst (span (fun c => negb (is_path_end c)) rest)))
    end.

(** [new URL(input).pathname]; [None] when the constructor throws. *)
Definition pathname (input : string) : option string :=
  let s := drop_while_end is_c0_or_space (drop_while is_c0_or_space input) in
  let s := string_filter (fun c => negb (is_tab_or_newline c)) s in
  match parse_scheme s with
  | Some (scheme, rest) => after_scheme scheme rest
  | None => None
  end.

End URL.

(** ** Data model *)

Import JS.

(** The line feed of template literals. *)
Definition nl : string := String (ascii_of_nat 10) EmptyString.

(** [interface SherrorError]. [post_title] and [post_body] are checked at
    run time by [sync], so they may be missing; [_discussion_link] is
    optional. *)
Record SherrorError : Type := mkError {
  error_code : Z;
  app_message : string;
  post_title : option string;
  post_body : option string;
  _discussion_link : option string
}.

(** A printer receives the error and the code path and writes to the
    console; it is modelled by the lines it writes. *)
Definition Printer : Type := SherrorError -> option string -> list string.

(** [interface SherrorConfig]. The constructor checks both fields, so both
    may be missing. *)
Record SherrorConfig : Type := mkConfig {
  category_name : option string;
  errors : option (list SherrorError);
  printer : option Printer
}.

(** Remote data, as the GraphQL queries select it. *)
Record Category : Type := mkCategory {
  category_id : string;
  category_node_name : string
}.

Record Repository : Type := mkRepository {
  repository_id : string;
  discussionCategories : list Category
}.

Record Discussion : Type := mkDiscussion {
  discussion_id : string;
  title : string;
  body : string
}.

Record DiscussionNode : Type := mkNode {
  node_id : string;
  node_number : Z;
  node_title : string
}.

(** ** The configuration artifact

    [sherror.config.ts] as ts-morph presents it: top-level declarations,
    the export table, and below a declaration the syntax the client
    navigates. An element of an array literal is its source text, as it
    stands in the file; the white space between the nodes is not kept. *)

Inductive Expression : Type :=
| ObjectLiteralExpression (properties : list Property)
| ArrayLiteralExpression (elements : list string)
| SatisfiesExpression (expression : Expression) (type_text : string)
| OtherExpression (text : string)
with Property : Type :=
| PropertyAssignment (name : string) (initializer : Expression)
| OtherProperty (name : option string) (text : string).

Inductive Declaration : Type :=
| VariableDeclaration (name : string) (initializer : option Expression)
| OtherDeclaration (text : string).

(** [exported] maps an export name to positions in [statements]: two names
    may designate the same declaration. *)
Record SourceFile : Type := mkSourceFile {
  statements : list Declaration;
  exported : list (string * list nat)
}.

(** [sourceFile.getExportedDeclarations().get(name)] *)
Definition exports_get (sf : SourceFile) (name : string) : option (list nat) :=
  snd <$> List.find (fun entry => String.eqb (fst entry) name) (exported sf).

(** [configDecls?.length] as a condition *)
Definition has_length (decls : option (list nat)) : bool :=
  match decls with
  | Some (_ :: _) => true
  | _ => false
  end.

Definition property_name (p : Property) : option string :=
  match p with
  | PropertyAssignment name _ => Some name
  | OtherProperty name _ => name
  end.

(** [prettyJSON(v)] inside a template literal, for a string that may be
    undefined. *)
Definition prettyJSON (v : option string) : string :=
  match v with
  | Some s => JSON_stringify_string s
  | None => "undefined"
  end.

(** [prettyJSON(err)] for an error entry: the defined fields, indented by
    two spaces. *)
Definition prettyJSON_error (err : SherrorError) : string :=
  let field (name : string) (value : option string) : list string :=
    match value with
    | Some v => ["  " +:+ JSON_stringify_string name +:+ ": " +:+ JSON_stringify_string v]
    | None => []
    end in
  "{" +:+ nl +:+
  join ("," +:+ nl)
    (["  " +:+ JSON_stringify_string "error_code" +:+ ": " +:+ string_of_Z (error_code err)]
     ++ field "app_message" (Some (app_message err))
     ++ field "post_title" (post_title err)
     ++ field "post_body" (post_body err)
     ++ field "_discussion_link" (_discussion_link err))
  +:+ nl +:+ "}".

(** The object literal text [writebackConfig] builds for one entry (the same
    template literal appears twice in the source). *)
Definition objText (error : SherrorError) : string :=
  "{" +:+ nl +:+
  "  error_code: " +:+ string_of_Z (error_code error) +:+ "," +:+ nl +:+
  "  app_message: " +:+ prettyJSON (Some (app_message error)) +:+ "," +:+ nl +:+
  "  post_title: " +:+ prettyJSON (post_title error) +:+ "," +:+ nl +:+
  "  post_body: " +:+ prettyJSON (post_body error) +:+
  (if truthy (_discussion_link error)
   then "," +:+ nl +:+ "  _discussion_link: " +:+ prettyJSON (_discussion_link error)
   else EmptyString) +:+
  nl +:+ "}".

(** *** The writer of ts-morph

    [element.replaceWithText(text)] and [arrayLiteral.addElement(text)] do
    not put [text] into the file as it is: ts-morph passes it through its
    code writer, which indents the lines after the first by an amount that
    it takes from the place of the element in the file. The library is not
    part of the client, and the layout of the file is not part of the
    syntax tree: what the writer makes of a text is a parameter of the
    operations.

    [replaceWithText w elements index text] is the text of the element at
    [index] once [replaceWithText(text)] has been called on it, [elements]
    being the texts of the elements of the array at that time;
    [addElement w elements text] is the text of the element that
    [addElement(text)] adds to the array. *)
Record Writer : Type := mkWriter {
  replaceWithText : list string -> nat -> string -> string;
  addElement : list string -> string -> string
}.

(** A blank is a space or a tab. *)
Definition is_blank (c : ascii) : bool := (code c =? 32)%nat || (code c =? 9)%nat.

Definition is_line_feed (c : ascii) : bool := (code c =? 10)%nat.

(** [s] without the blanks that follow a line feed; [at_start] tells
    whether [s] begins where a line begins. *)
Fixpoint unindent_from (at_start : bool) (s : string) : string :=
  match s with
  | EmptyString => EmptyString
  | String c r =>
      if at_start && is_blank c then unindent_from true r
      else String c (unindent_from (is_line_feed c) r)
  end.

(** A text without the indentation of its lines after the first. *)
Definition unindent (text : string) : string := unindent_from false text.

(** A writer that changes nothing but the indentation of the lines of the
    literals that the client hands to it. *)
Definition indents_only (writer : Writer) : Prop :=
  forall (elements : list string) (error : SherrorError),
    (forall index : nat,
        unindent (replaceWithText writer elements index (objText error))
        = unindent (objText error))
    /\ unindent (addElement writer elements (objText error)) = unindent (objText error).

(** One turn of the [forEach] over the existing elements: the element at
    [index] is replaced when an entry exists at this index. *)
Definition replace_element (writer : Writer) (errs : list SherrorError)
    (elements : list string) (index : nat) : list string :=
  match errs !! index with
  | Some error =>
      <[index := replaceWithText writer elements index (objText error)]> elements
  | None => elements
  end.

(** The [forEach] over the elements that the array has when it starts. *)
Definition replace_elements (writer : Writer) (errs : list SherrorError)
    (elements : list string) : list string :=
  foldl (replace_element writer errs) elements (seq 0 (length elements)).

(** Then the entries beyond the existing elements are added one by one. *)
Definition add_elements (writer : Writer) (errs : list SherrorError)
    (elements : list string) : list string :=
  if (length elements <? length errs)%nat
  then foldl (fun elements error => elements ++ [addElement writer elements (objText error)])
         elements (drop (length elements) errs)
  else elements.

Definition rewrite_elements (writer : Writer) (errs : list SherrorError)
    (elements : list string) : list string :=
  add_elements writer errs (replace_elements writer errs elements).

(** [configInit.getProperty("errors")], the checks on it, and the rewriting
    of its array literal. *)
Definition is_errors_property (p : Property) : bool :=
  match property_name p with
  | Some name => String.eqb name "errors"
  | None => false
  end.

Definition no_errors_property : Exn :=
  Error ("Expected config to have a property " +:+ quote +:+ "errors" +:+ quote +:+ ".").

Fixpoint rewrite_properties (writer : Writer) (errs : list SherrorError)
    (props : list Property) : result (list Property) :=
  match props with
  | [] => Throw no_errors_property
  | p :: rest =>
      if is_errors_property p then
        match p with
        | PropertyAssignment name (ArrayLiteralExpression elements) =>
            Ok (PropertyAssignment name
                  (ArrayLiteralExpression (rewrite_elements writer errs elements)) :: rest)
        | PropertyAssignment _ _ =>
            Throw (Error "Expected initializer to be of kind ArrayLiteralExpression.")
        | OtherProperty _ _ => Throw no_errors_property
        end
      else
        match rewrite_properties writer errs rest with
        | inr rest' => Ok (p :: rest')
        | inl e => Throw e
        end
  end.

(** The object literal, directly or under one [satisfies]. *)
Definition rewrite_initializer (writer : Writer) (errs : list SherrorError)
    (init : Expression) : result Expression :=
  let not_object :=
    Throw (Error "Expected config to be an object literal or satisfy an object type.") in
  match init with
  | SatisfiesExpression (ObjectLiteralExpression props) type_text =>
      match rewrite_properties writer errs props with
      | inr props' => Ok (SatisfiesExpression (ObjectLiteralExpression props') type_text)
      | inl e => Throw e
      end
  | SatisfiesExpression _ _ => not_object
  | ObjectLiteralExpression props =>
      match rewrite_properties writer errs props with
      | inr props' => Ok (ObjectLiteralExpression props')
      | inl e => Throw e
      end
  | _ => not_object
  end.

(** [configDecls[0] as VariableDeclaration] and its initializer. *)
Definition rewrite_declaration (writer : Writer) (errs : list SherrorError)
    (decl : option Declaration) : result Declaration :=
  match decl with
  | Some (VariableDeclaration name (Some init)) =>
      match rewrite_initializer writer errs init with
      | inr init' => Ok (VariableDeclaration name (Some init'))
      | inl e => Throw e
      end
  | Some (VariableDeclaration _ None) =>
      Throw (Error "Expected to find an initializer.")
  | _ => Throw (TypeError "configDecl.getInitializerOrThrow is not a function")
  end.

(** ** The client and its environment *)

(** The GraphQL operations the client sends, with their variables. *)
Inductive Query : Type :=
| RepoInfo (owner repo : string)
| GetDiscussion (owner repo : string) (number : number)
| UpdateDiscussion (id title body : string)
| CreateDiscussion (repoId catId title body : string)
| GetDiscussions (owner repo categoryId : string)
| DeleteDiscussion (id : string).

(** The part of [data.data] the client reads, by operation: the type
    argument of [requestGraphQL<T>]. *)
Definition response (q : Query) : Type :=
  match q with
  | RepoInfo _ _ => option Repository
  | GetDiscussion _ _ _ => option (option Discussion)
  | UpdateDiscussion _ _ _ => string
  | CreateDiscussion _ _ _ _ => string
  | GetDiscussions _ _ _ => list DiscussionNode
  | DeleteDiscussion _ => unit
  end.

(** What [fetch] and the reading of its body can give. *)
Inductive FetchResult (T : Type) : Type :=
| Rejected (e : Exn)
| NotOk (status : Z) (text : string)
| BodyErrors (pretty : string)
| BodyData (data : T).

Arguments Rejected {T} e.
Arguments NotOk {T} status text.
Arguments BodyErrors {T} pretty.
Arguments BodyData {T} data.

(** What the client does that can be observed from outside. *)
Inductive Event : Type :=
| Request (q : Query) (r : result (response q))
| Log (text : string)
| Debug (text : string)
| ErrorLog (text : string) (e : Exn)
| Writeback (errs : option (list SherrorError)).

(** The fields of a [SherrorClient]. [project] holds the source file once
    it has been added. *)
Record Client : Type := mkClient {
  ghToken : string;
  sherrorConfig : SherrorConfig;
  project : option SourceFile
}.

(** [new SherrorClient(config)], with the value of [GITHUB_TOKEN] once the
    [.env] file is loaded. *)
Definition new_SherrorClient (GITHUB_TOKEN : option string) (config : SherrorConfig)
  : result Client :=
  if negb (truthy GITHUB_TOKEN) then
    Throw (Error "'GITHUB_TOKEN' must be set to configure GitHub Discussions")
  else if negb (truthy (category_name config)) || negb (defined (errors config)) then
    Throw (Error "Invalid config: missing required fields")
  else
    Ok {| ghToken := default EmptyString GITHUB_TOKEN;
          sherrorConfig := config;
          project := None |}.

(** [parseGitRemote] *)
Definition parseGitRemote (remote : string) : result (string * string) :=
  let finish (path : string) : result (string * string) :=
    let path := replace_dot_git_end path in
    let parts := split "/" path in
    let owner := parts !! 0%nat in
    let repo := parts !! 1%nat in
    if negb (truthy owner) || negb (truthy repo) then
      Throw (Error ("Invalid git remote path: " +:+ path))
    else Ok (default EmptyString owner, default EmptyString repo) in
  if startsWith remote "git@" then
    match split ":" remote !! 1%nat with
    | Some path => finish path
    | None => Throw (TypeError "Cannot read properties of undefined (reading 'replace')")
    end
  else if test_http_prefix remote then
    match URL.pathname remote with
    | Some pathname => finish (slice1 pathname)
    | None => Throw (TypeError ("Invalid URL: '" +:+ remote +:+ "'"))
    end
  else Throw (Error ("Unrecognized git remote URL: " +:+ remote)).

(** [parseDiscussionNumber]: everything happens inside the [try]. *)
Definition parseDiscussionNumber (link : string) : result number :=
  match URL.pathname link with
  | Some pathname =>
      let parts := split "/" pathname in
      let num := default EmptyString (last parts) in
      Ok (parseInt10 num)
  | None => Throw (Error ("Invalid discussion link: " +:+ link))
  end.

(** What [get] returns: the entry with its styled message, and what
    [print] and [exit] do. *)
Record Handle : Type := mkHandle {
  handle_error : SherrorError;
  print : option string -> list string;
  exit : Z
}.

Section Accessor.

(** [colorize] of [@polyseam/emoji-ansi-colorizer]. *)
Variable colorize : string -> string.

(** [get] *)
Definition get (this : Client) (code : Z) : result Handle :=
  match errors (sherrorConfig this) with
  | None => Throw (TypeError "Cannot read properties of undefined (reading 'find')")
  | Some errs =>
      match List.find (fun e => error_code e =? code) errs with
      | None => Throw (Error ("Error code " +:+ string_of_Z code +:+ " not found in config"))
      | Some err =>
          let e := {| error_code := error_code err;
                      app_message := colorize (app_message err);
                      post_title := post_title err;
                      post_body := post_body err;
                      _discussion_link := _discussion_link err |} in
          Ok {| handle_error := e;
                print := fun codepath =>
                  match printer (sherrorConfig this) with
                  | Some p => p e codepath
                  | None => []
                  end;
                exit := code |}
      end
  end.

End Accessor.

(** The entry [e] once [e._discussion_link = url] is executed. *)
Definition with_link (e : SherrorError) (url : string) : SherrorError :=
  {| error_code := error_code e; app_message := app_message e;
     post_title := post_title e; post_body := post_body e;
     _discussion_link := Some url |}.

(** ** Stateful operations *)

Section Operations.

(** The world outside the process: the remote platform behind [fetch] and
    the git repository behind [git config --get remote.origin.url]. *)
Variable World : Type.
Variable fetch : forall q : Query, World -> World * FetchResult (response q).
Variable git_stdout : World -> string.

(** The writer of ts-morph, see above. *)
Variable writer : Writer.

Record State : Type := mkState {
  world : World;
  this : Client;
  disk : option SourceFile;
  trace : list Event
}.

(** Computations that read and change the state and may throw; the state
    reached when an exception is thrown is kept. *)
Definition M (A : Type) : Type := State -> State * result A.

#[global] Instance M_ret : MRet M := fun A a st => (st, Ok a).

#[global] Instance M_bind : MBind M := fun A B f m st =>
  match m st with
  | (st', inr a) => f a st'
  | (st', inl e) => (st', Throw e)
  end.

Definition throw {A : Type} (e : Exn) : M A := fun st => (st, Throw e).

Definition lift {A : Type} (r : result A) : M A := fun st => (st, r).

(** [try { m } catch (error) { handler }] *)
Definition try_catch {A : Type} (m : M A) (handler : Exn -> M A) : M A := fun st =>
  match m st with
  | (st', inr a) => (st', Ok a)
  | (st', inl error) => handler error st'
  end.

Definition emit (ev : Event) : M unit := fun st =>
  ({| world := world st; this := this st; disk := disk st;
      trace := trace st ++ [ev] |}, Ok tt).

Definition get_config : M SherrorConfig := fun st => (st, Ok (sherrorConfig (this st))).

Definition set_config (cfg : SherrorConfig) : M unit := fun st =>
  ({| world := world st;
      this := {| ghToken := ghToken (this st); sherrorConfig := cfg;
                 project := project (this st) |};
      disk := disk st; trace := trace st |}, Ok tt).

Definition set_project (sf : SourceFile) : M unit := fun st =>
  ({| world := world st;
      this := {| ghToken := ghToken (this st); sherrorConfig := sherrorConfig (this st);
                 project := Some sf |};
      disk := disk st; trace := trace st |}, Ok tt).

(** [requestGraphQL] *)
Definition requestGraphQL (q : Query) : M (response q) := fun st =>
  let '(w, fr) := fetch q (world st) in
  let r : result (response q) :=
    match fr with
    | Rejected e => Throw e
    | NotOk status text =>
        Throw (Error ("GitHub GraphQL error " +:+ string_of_Z status +:+ ": " +:+ text))
    | BodyErrors pretty => Throw (Error ("GraphQL errors: " +:+ pretty))
    | BodyData data => Ok data
    end in
  ({| world := w; this := this st; disk := disk st;
      trace := trace st ++ [Request q r] |}, r).

(** [requestRepositoryInfo]; the category is not part of the query. *)
Definition requestRepositoryInfo (owner repo _category : string) : M (option Repository) :=
  requestGraphQL (RepoInfo owner repo).

(** [getGitRemoteUrl] *)
Definition getGitRemoteUrl : M string := fun st => (st, Ok (trim (git_stdout (world st)))).

(** [this.project.addSourceFileAtPath("sherror.config.ts")]: the file the
    project already holds, else the one on disk. *)
Definition addSourceFileAtPath : M SourceFile := fun st =>
  match project (this st) with
  | Some sf => (st, Ok sf)
  | None =>
      match disk st with
      | Some sf => (fst (set_project sf st), Ok sf)
      | None => (st, Throw (Error "File not found: sherror.config.ts"))
      end
  end.

(** [this.project.save()] *)
Definition save : M unit := fun st =>
  ({| world := world st; this := this st; disk := project (this st);
      trace := trace st |}, Ok tt).

Definition invalid_config : Exn :=
  Error "Invalid sherror config: missing category_name or errors".

(** [writebackConfig] *)
Definition writebackConfig : M unit :=
  cfg ← get_config;
  emit (Writeback (errors cfg));;
  if negb (truthy (category_name cfg)) || negb (defined (errors cfg)) then
    throw invalid_config
  else
    let errs := default [] (errors cfg) in
    sourceFile ← addSourceFileAtPath;
    let by_default := exports_get sourceFile "default" in
    configDecls ←
      (if has_length by_default then mret by_default
       else emit (Debug "No 'export default' found");;
            mret (exports_get sourceFile "config"));
    match configDecls with
    | Some (position :: _) =>
        configDecl ← lift (rewrite_declaration writer errs
                             (statements sourceFile !! position));
        set_project {| statements := <[position := configDecl]> (statements sourceFile);
                       exported := exported sourceFile |};;
        save
    | _ => throw (Error "No 'export config' found")
    end.
(** [this.sherrorConfig.errors[index]._discussion_link = discussionUrl] *)
Definition set_discussion_link (index : nat) (url : string) : M unit :=
  cfg ← get_config;
  match errors cfg with
  | Some errs =>
      set_config
        {| category_name := category_name cfg;
           errors := Some (alter (fun e => with_link e url) index errs);
           printer := printer cfg |}
  | None => throw (TypeError "Cannot read properties of undefined")
  end.

(** The message logged when the category does not exist: the template
    literal before, at and after [${availableCategories}]. *)
Definition message_before (name owner repo : string) : string :=
  nl +:+ "Error: Discussion category " +:+ quote +:+ name +:+ quote +:+ " not found in "
     +:+ owner +:+ "/" +:+ repo +:+ "." +:+ nl +:+
  nl +:+
  "Available categories:" +:+ nl.

Definition availableCategories (nodes : list Category) : string :=
  join nl ((fun c => "- " +:+ category_node_name c) <$> nodes).

Definition message_after (name : string) : string :=
  nl +:+
  nl +:+
  "To fix this:" +:+ nl +:+
  "1. Go to your repository settings on GitHub" +:+ nl +:+
  "2. Click on " +:+ quote +:+ "Options" +:+ quote +:+ " in the left sidebar" +:+ nl +:+
  "3. Scroll down to the " +:+ quote +:+ "Features" +:+ quote +:+ " section" +:+ nl +:+
  "4. Make sure " +:+ quote +:+ "Discussions" +:+ quote +:+ " is enabled" +:+ nl +:+
  "5. Click on " +:+ quote +:+ "Set up discussions" +:+ quote +:+ " if not already set up" +:+ nl +:+
  "6. Create a new category named " +:+ quote +:+ name +:+ quote
     +:+ " in the discussions settings" +:+ nl +:+
  "7. Run this command again" +:+ nl.

Definition category_not_found_message (name owner repo : string) (nodes : list Category)
  : string :=
  message_before name owner repo +:+ availableCategories nodes +:+ message_after name.

Definition category_not_found (name : string) : Exn :=
  Error ("Discussion category " +:+ quote +:+ name +:+ quote
         +:+ " not found and cannot be created programmatically").

(** The body of the [for] loop of [sync] for the entry [err] at [index];
    the result is the new value of [updated]. *)
Definition sync_entry (owner repo repoId categoryId : string)
    (index : nat) (err : SherrorError) (updated : bool) : M bool :=
  match post_title err, post_body err with
  | Some err_title, Some err_body =>
      if truthy (_discussion_link err) then
        num ← lift (parseDiscussionNumber (default EmptyString (_discussion_link err)));
        q ← requestGraphQL (GetDiscussion owner repo num);
        match q with
        | Some (Some disc) =>
            if negb (String.eqb (title disc) err_title)
               || negb (String.eqb (body disc) err_body)
            then
              requestGraphQL (UpdateDiscussion (discussion_id disc) err_title err_body);;
              mret updated
            else mret updated
        | _ => throw (Error ("Discussion #" +:+ string_of_number num +:+ " not found"))
        end
      else
        discussionUrl ← requestGraphQL (CreateDiscussion repoId categoryId err_title err_body);
        set_discussion_link index discussionUrl;;
        mret true
  | _, _ =>
      throw (Error ("Invalid error entry missing post_title or post_body: "
                    +:+ prettyJSON_error err))
  end.

(** The [for] loop of [sync], from [index] on. [cfg.errors] is read again at
    every turn, as in the source; [turns] bounds the number of turns and is
    the length of the list when the loop starts from 0. *)
Fixpoint sync_loop (owner repo repoId categoryId : string)
    (turns index : nat) (updated : bool) : M bool :=
  match turns with
  | O => mret updated
  | S turns' =>
      cfg ← get_config;
      match default [] (errors cfg) !! index with
      | None => mret updated
      | Some err =>
          updated' ← sync_entry owner repo repoId categoryId index err updated;
          sync_loop owner repo repoId categoryId turns' (S index) updated'
      end
  end.

(** [sync] *)
Definition sync : M unit :=
  cfg ← get_config;
  if negb (truthy (category_name cfg)) || negb (defined (errors cfg)) then
    throw invalid_config
  else
    let name := default EmptyString (category_name cfg) in
    remote ← getGitRemoteUrl;
    '(owner, repo) ← lift (parseGitRemote remote);
    repository ← requestRepositoryInfo owner repo name;
    match repository with
    | None => throw (Error ("Repository " +:+ owner +:+ "/" +:+ repo +:+ " not found"))
    | Some repository =>
        let repoId := repository_id repository in
        let nodes := discussionCategories repository in
        match List.find (fun cat => String.eqb (category_node_name cat) name) nodes with
        | None =>
            emit (Log (category_not_found_message name owner repo nodes));;
            throw (category_not_found name)
        | Some category =>
            let categoryId := category_id category in
            emit (Log ("Using existing category: " +:+ category_node_name category
                       +:+ " (" +:+ categoryId +:+ ")"));;
            updated ← sync_loop owner repo repoId categoryId
                        (length (default [] (errors cfg))) 0 false;
            if updated : bool then writebackConfig else mret tt
        end
    end.

(** [getConfig] (a shallow copy). *)
Definition getConfig : M SherrorConfig := get_config.

(** The deletion loop of [clear]. *)
Fixpoint delete_discussions (discussions : list DiscussionNode) : M unit :=
  match discussions with
  | [] => mret tt
  | discussion :: rest =>
      emit (Log ("Deleting discussion #" +:+ string_of_Z (node_number discussion)
                 +:+ ": " +:+ node_title discussion));;
      try_catch
        (requestGraphQL (DeleteDiscussion (node_id discussion));; mret tt)
        (fun error =>
           emit (ErrorLog ("Failed to delete discussion #"
                           +:+ string_of_Z (node_number discussion) +:+ ":") error);;
           throw error);;
      delete_discussions rest
  end.

(** [delete error._discussion_link] on every entry that has a link. *)
Definition strip_link (error : SherrorError) : SherrorError :=
  if truthy (_discussion_link error) then
    {| error_code := error_code error; app_message := app_message error;
       post_title := post_title error; post_body := post_body error;
       _discussion_link := None |}
  else error.

Definition no_discussions (name : string) : string :=
  "No discussions found in category " +:+ quote +:+ name +:+ quote.

(** [clear] *)
Definition clear : M unit :=
  cfg ← get_config;
  if negb (truthy (category_name cfg)) then
    throw (Error "Invalid config: missing category_name")
  else
    let name := default EmptyString (category_name cfg) in
    remote ← getGitRemoteUrl;
    '(owner, repo) ← lift (parseGitRemote remote);
    repository ← requestRepositoryInfo owner repo name;
    match repository with
    | None => throw (Error ("Repository " +:+ owner +:+ "/" +:+ repo +:+ " not found"))
    | Some repository =>
        match List.find (fun cat => String.eqb (category_node_name cat) name)
                (discussionCategories repository) with
        | None => emit (Log (no_discussions name))
        | Some category =>
            discussions ← requestGraphQL (GetDiscussions owner repo (category_id category));
            match discussions with
            | [] => emit (Log (no_discussions name))
            | _ =>
                emit (Log ("Found " +:+ string_of_Z (Z.of_nat (length discussions))
                           +:+ " discussions to delete..."));;
                delete_discussions discussions;;
                emit (Log ("Successfully deleted "
                           +:+ string_of_Z (Z.of_nat (length discussions))
                           +:+ " discussions from category " +:+ quote +:+ name +:+ quote));;
                cfg' ← get_config;
                match errors cfg' with
                | Some errs =>
                    let updated := existsb (fun error => truthy (_discussion_link error)) errs in
                    set_config {| category_name := category_name cfg';
                                  errors := Some (strip_link <$> errs);
                                  printer := printer cfg' |};;
                    if updated then writebackConfig else mret tt
                | None => mret tt
                end
            end
        end
    end.

End Operations.

Arguments world {World} s.
Arguments this {World} s.
Arguments disk {World} s.
Arguments trace {World} s.
Arguments mkState {World} world this disk trace.

(** ** Writers

    The code writer of ts-morph puts the same indentation in front of every
    line after the first that is not empty. What the indentation is depends
    on the place of the element in the file; two layouts of the [errors]
    array are described here. *)

Module TsMorph.

Fixpoint spaces (n : nat) : string :=
  match n with
  | O => EmptyString
  | S n' => String " " (spaces n')
  end.

(** [text] with [indentation] in front of every line after the first that
    is not empty. *)
Fixpoint indent_lines (indentation : string) (text : string) : string :=
  match text with
  | EmptyString => EmptyString
  | String c r =>
      String c
        (if is_line_feed c then
           match r with
           | EmptyString => EmptyString
           | String c' _ =>
               if is_line_feed c' then indent_lines indentation r
               else indentation +:+ indent_lines indentation r
           end
         else indent_lines indentation r)
  end.

(** An array literal whose elements are each on a line of their own, at
    [width] columns, [width] being also the indentation of the children of
    the array. [replaceWithText] indents by the indentation of the line on
    which the element starts, [addElement] by the indentation of the
    children: both by [width] columns. *)
Definition lines_writer (width : nat) : Writer :=
  {| replaceWithText := fun _ _ text => indent_lines (spaces width) text;
     addElement := fun _ text => indent_lines (spaces width) text |}.

(** An array literal that the file has empty and on one line,
    [errors: []], this line being indented by [line] columns and the
    children of the array by [child] columns. [addElement] puts the first
    element right after the bracket, on the line of the array, and the next
    ones on lines of their own; it indents by the indentation of the
    children. [replaceWithText] indents by the indentation of the line on
    which the element starts: the line of the array for the first element,
    a line at the indentation of the children for the others. *)
Definition one_line_writer (line child : nat) : Writer :=
  {| replaceWithText := fun _ index text =>
       indent_lines (spaces (match index with O => line | S _ => child end)) text;
     addElement := fun _ text => indent_lines (spaces child) text |}.

End TsMorph.

(** ** A small platform to run the client against

    One repository with its categories and discussions; discussion numbers
    are handed out in sequence; after [budget] mutations the platform
    answers 403 (rate limit). *)

Module Platform.

Record World : Type := mkWorld {
  origin : string;
  repository : option Repository;
  discussions : list DiscussionNode;
  bodies : list (string * string);
  next_number : Z;
  budget : nat
}.

Definition discussion_url (number : Z) : string :=
  "https://github.com/polyseam/sherror/discussions/" +:+ string_of_Z number.

Definition spend (w : World) : World :=
  {| origin := origin w; repository := repository w; discussions := discussions w;
     bodies := bodies w; next_number := next_number w; budget := pred (budget w) |}.

Definition with_discussions (w : World) (ds : list DiscussionNode)
    (bs : list (string * string)) (next : Z) : World :=
  {| origin := origin w; repository := repository w; discussions := ds;
     bodies := bs; next_number := next; budget := budget w |}.

Definition body_of (w : World) (id : string) : string :=
  default EmptyString (snd <$> List.find (fun b => String.eqb (fst b) id) (bodies w)).

Definition lookup_number (w : World) (n : number) : option Discussion :=
  match n with
  | NaN => None
  | Num z =>
      (fun d => {| discussion_id := node_id d; title := node_title d;
                   body := body_of w (node_id d) |})
        <$> List.find (fun d => node_number d =? z) (discussions w)
  end.

Definition mutation (w : World) {T : Type} (k : World -> World * T) : World * FetchResult T :=
  match budget w with
  | O => (w, NotOk 403 "API rate limit exceeded")
  | S _ => let '(w', data) := k (spend w) in (w', BodyData data)
  end.

Definition fetch (q : Query) : World -> World * FetchResult (response q) :=
  match q return World -> World * FetchResult (response q) with
  | RepoInfo _ _ => fun w => (w, BodyData (repository w))
  | GetDiscussion _ _ n => fun w => (w, BodyData (Some (lookup_number w n)))
  | UpdateDiscussion id new_title new_body => fun w =>
      mutation w (fun w =>
        (with_discussions w
           ((fun d => if String.eqb (node_id d) id
                      then {| node_id := id; node_number := node_number d;
                              node_title := new_title |}
                      else d) <$> discussions w)
           ((id, new_body) :: bodies w) (next_number w),
         default EmptyString
           ((fun d => discussion_url (node_number d))
              <$> List.find (fun d => String.eqb (node_id d) id) (discussions w))))
  | CreateDiscussion _ _ new_title new_body => fun w =>
      mutation w (fun w =>
        let id := "D_" +:+ string_of_Z (next_number w) in
        (with_discussions w
           (discussions w ++ [{| node_id := id; node_number := next_number w;
                                 node_title := new_title |}])
           ((id, new_body) :: bodies w) (next_number w + 1),
         discussion_url (next_number w)))
  | GetDiscussions _ _ _ => fun w => (w, BodyData (discussions w))
  | DeleteDiscussion id => fun w =>
      mutation w (fun w =>
        (with_discussions w
           (List.filter (fun d => negb (String.eqb (node_id d) id)) (discussions w))
           (bodies w) (next_number w), tt))
  end.

(** The example file has every element of [errors] on a line of its own,
    at four columns. *)
Definition writer : Writer := TsMorph.lines_writer 4.

Definition sync (s : State World) : State World * result unit :=
  sync World fetch origin writer s.

Definition clear (s : State World) : State World * result unit :=
  clear World fetch origin writer s.

Definition writebackConfig (s : State World) : State World * result unit :=
  writebackConfig World writer s.

End Platform.

Module Examples.

Definition error1 (link : option string) : SherrorError :=
  {| error_code := 1;
     app_message := "You must include a --foo option";
     post_title := Some "Error 1";
     post_body := Some "if this happens, do that";
     _discussion_link := link |}.

Definition error2 (link : option string) : SherrorError :=
  {| error_code := 2;
     app_message := "You must include a --bar option";
     post_title := Some "Error 2: `bar` must be defined";
     post_body := Some "finding the correct value for `bar` can be done by consulting the orb";
     _discussion_link := link |}.

Definition config (errs : list SherrorError) : SherrorConfig :=
  {| category_name := Some "sherror-example"; errors := Some errs; printer := None |}.

(** [export const config: SherrorConfig = { category_name, errors: [...] }
    satisfies SherrorConfig;] *)
Definition config_file (elements : list string) : SourceFile :=
  {| statements :=
       [VariableDeclaration "config"
          (Some (SatisfiesExpression
                   (ObjectLiteralExpression
                      [PropertyAssignment "category_name" (OtherExpression "sherror-example");
                       PropertyAssignment "errors" (ArrayLiteralExpression elements)])
                   "SherrorConfig"))];
     exported := [("config", [0%nat])] |}.

Definition repo : Repository :=
  {| repository_id := "R_1";
     discussionCategories :=
       [{| category_id := "C_general"; category_node_name := "General" |};
        {| category_id := "C_sherror"; category_node_name := "sherror-example" |}] |}.

Definition platform (ds : list DiscussionNode) (bs : list (string * string)) (budget : nat)
  : Platform.World :=
  {| Platform.origin := "git@github.com:polyseam/sherror.git" +:+ nl;
     Platform.repository := Some repo;
     Platform.discussions := ds;
     Platform.bodies := bs;
     Platform.next_number := 1 + Z.of_nat (length ds);
     Platform.budget := budget |}.

Definition state (w : Platform.World) (errs : list SherrorError) (elements : list string)
  : State Platform.World :=
  {| world := w;
     this := {| ghToken := "token"; sherrorConfig := config errs; project := None |};
     disk := Some (config_file elements);
     trace := [] |}.

(** The discussions 1 to 3 of the category, with the titles and bodies of
    the example entries. *)
Definition three_discussions : list DiscussionNode :=
  [{| node_id := "D_1"; node_number := 1; node_title := "Error 1" |};
   {| node_id := "D_2"; node_number := 2; node_title := "Error 2: `bar` must be defined" |};
   {| node_id := "D_3"; node_number := 3; node_title := "Error 3" |}].

Definition error3 (link : option string) : SherrorError :=
  {| error_code := 3;
     app_message := "You must include a --baz option";
     post_title := Some "Error 3";
     post_body := Some "see the manual";
     _discussion_link := link |}.

(** Discussion 27 with the title and the body of the first entry. *)
Definition discussion27 : Discussion :=
  {| discussion_id := "D_27"; title := "Error 1"; body := "if this happens, do that" |}.

Definition platform27 : Platform.World :=
  {| Platform.origin := "git@github.com:polyseam/sherror.git" +:+ nl;
     Platform.repository := Some repo;
     Platform.discussions :=
       [{| node_id := "D_27"; node_number := 27; node_title := "Error 1" |}];
     Platform.bodies := [("D_27", "if this happens, do that")];
     Platform.next_number := 28;
     Platform.budget := 10 |}.

Definition link27 : string := "https://github.com/polyseam/sherror/discussions/27".

End Examples.

(** ** Reading the artifact back

    A reader for object literals as they stand in the artifact, and the
    navigation from the source file to the elements of the [errors] array.
    The reader cuts the text into tokens, white space (line feeds
    included) separating them, and reads [name: value] pairs between
    braces, separated by commas, a comma being allowed after the last pair.
    A value is a decimal integer, [undefined], [null] or a double-quoted
    string literal with the escapes of JSON. *)

Module Reader.

Inductive Value : Type :=
| VNumber (z : Z)
| VString (s : string)
| VUndefined
| VNull.

Inductive Token : Type :=
| TPunctuator (c : ascii)
| TWord (w : string)
| TString (v : string).

Definition simple_escape (c : ascii) : option ascii :=
  match code c with
  | 98 => Some (ascii_of_nat 8)
  | 116 => Some (ascii_of_nat 9)
  | 110 => Some (ascii_of_nat 10)
  | 102 => Some (ascii_of_nat 12)
  | 114 => Some (ascii_of_nat 13)
  | 34 | 92 | 47 => Some c
  | _ => None
  end%nat.

(** The characters of identifiers and of numbers. *)
Definition is_word_char (c : ascii) : bool :=
  is_alnum c || existsb (Nat.eqb (code c)) [36; 43; 45; 46; 95]%nat.

(** Braces, colon and comma. *)
Definition is_punctuator (c : ascii) : bool :=
  existsb (Nat.eqb (code c)) [44; 58; 123; 125]%nat.

(** Where the reader is in the text. In [Unicode left value], [left]
    digits of a [\u] escape are still to be read. *)
Inductive Mode : Type :=
| Between
| InWord
| InString
| Escape
| Unicode (todo value : nat).

(** Puts [c] in front of the word or of the string that opens [tokens]. *)
Definition push (c : ascii) (tokens : list Token) : list Token :=
  match tokens with
  | TWord w :: rest => TWord (String c w) :: rest
  | TString v :: rest => TString (String c v) :: rest
  | _ => tokens
  end.

(** Ends the word that is being read, if any. *)
Definition close (mode : Mode) (tokens : option (list Token)) : option (list Token) :=
  match mode with
  | InWord => cons (TWord EmptyString) <$> tokens
  | _ => tokens
  end.

(** The tokens of a text. A line terminator inside a string literal and an
    escape above code 127 are refused. *)
Fixpoint scan (mode : Mode) (s : string) : option (list Token) :=
  match s with
  | EmptyString =>
      match mode with
      | Between => Some []
      | InWord => Some [TWord EmptyString]
      | _ => None
      end
  | String c r =>
      match mode with
      | Between | InWord =>
          if is_word_char c then push c <$> scan InWord r
          else
            close mode
              (if is_white_space c then scan Between r
               else if is_punctuator c then cons (TPunctuator c) <$> scan Between r
               else if (code c =? 34)%nat then scan InString r
               else None)
      | InString =>
          if (code c =? 34)%nat then cons (TString EmptyString) <$> scan Between r
          else if (code c =? 92)%nat then scan Escape r
          else if (code c =? 10)%nat || (code c =? 13)%nat then None
          else push c <$> scan InString r
      | Escape =>
          if (code c =? 117)%nat then scan (Unicode 4 0) r
          else
            match simple_escape c with
            | Some x => push x <$> scan InString r
            | None => None
            end
      | Unicode todo value =>
          match hex_value c, todo with
          | Some digit, 1%nat =>
              if (16 * value + digit <? 128)%nat
              then push (ascii_of_nat (16 * value + digit)) <$> scan InString r
              else None
          | Some digit, S todo' => scan (Unicode todo' (16 * value + digit)) r
          | _, _ => None
          end
      end
  end.

Definition is_token (c : ascii) (t : Token) : bool :=
  match t with
  | TPunctuator x => ascii_eqb x c
  | _ => false
  end.

(** A property name: an identifier or a string literal. *)
Definition name_of (t : Token) : option string :=
  match t with
  | TWord w => Some w
  | TString v => Some v
  | TPunctuator _ => None
  end.

Definition value_of (t : Token) : option Value :=
  match t with
  | TString v => Some (VString v)
  | TWord w =>
      if String.eqb w "undefined" then Some VUndefined
      else if String.eqb w "null" then Some VNull
      else
        match NilZero.int_of_string w with
        | Some d => Some (VNumber (Z.of_int d))
        | None => None
        end
  | TPunctuator _ => None
  end.

(** The pairs after the opening brace, up to the closing brace, which must
    be the last token. *)
Fixpoint read_fields (tokens : list Token) : option (list (string * Value)) :=
  match tokens with
  | [] => None
  | [t] => if is_token "}" t then Some [] else None
  | name :: colon :: rest =>
      match rest with
      | value :: rest' =>
          match name_of name, value_of value with
          | Some n, Some v =>
              if negb (is_token ":" colon) then None
              else
                match rest' with
                | [] => None
                | [t] => if is_token "}" t then Some [(n, v)] else None
                | comma :: rest'' =>
                    if is_token "," comma
                    then cons (n, v) <$> read_fields rest''
                    else None
                end
          | _, _ => None
          end
      | [] => None
      end
  end.

(** The fields of an object literal, in the order of the text. *)
Definition read_literal (text : string) : option (list (string * Value)) :=
  match scan Between text with
  | Some (t :: tokens) => if is_token "{" t then read_fields tokens else None
  | _ => None
  end.

Definition field (name : string) (fields : list (string * Value)) : option Value :=
  snd <$> List.find (fun f => String.eqb (fst f) name) fields.

Definition property_elements (props : list Property) : option (list string) :=
  match List.find is_errors_property props with
  | Some (PropertyAssignment _ (ArrayLiteralExpression elements)) => Some elements
  | _ => None
  end.

Definition initializer_elements (init : Expression) : option (list string) :=
  match init with
  | SatisfiesExpression (ObjectLiteralExpression props) _ => property_elements props
  | ObjectLiteralExpression props => property_elements props
  | _ => None
  end.

(** The elements of the [errors] array of the exported configuration. *)
Definition config_elements (sf : SourceFile) : option (list string) :=
  let decls :=
    if has_length (exports_get sf "default") then exports_get sf "default"
    else exports_get sf "config" in
  match decls with
  | Some (position :: _) =>
      match statements sf !! position with
      | Some (VariableDeclaration _ (Some init)) => initializer_elements init
      | _ => None
      end
  | _ => None
  end.

End Reader.

(** What the reader gives for a string that may be undefined. *)
Definition read_back (v : option string) : Reader.Value :=
  match v with
  | Some s => Reader.VString s
  | None => Reader.VUndefined
  end.

(** What a reader must find in the literal of an entry. *)
Definition literal_fields (error : SherrorError) : list (string * Reader.Value) :=
  [("error_code", Reader.VNumber (error_code error));
   ("app_message", Reader.VString (app_message error));
   ("post_title", read_back (post_title error));
   ("post_body", read_back (post_body error))]
  ++ (if truthy (_discussion_link error)
      then [("_discussion_link", read_back (_discussion_link error))]
      else []).

(** The characters of a printed integer. *)
Definition is_number_char (c : ascii) : bool := is_digit c || ascii_eqb c "-".

(** The token of a value written by [prettyJSON]. *)
Definition value_token (v : option string) : Reader.Token :=
  match v with
  | Some s => Reader.TString s
  | None => Reader.TWord "undefined"
  end.

(** The tokens of the literal of an entry. *)
Definition literal_tokens (error : SherrorError) : list Reader.Token :=
  [Reader.TPunctuator "{";
   Reader.TWord "error_code"; Reader.TPunctuator ":";
   Reader.TWord (string_of_Z (error_code error)); Reader.TPunctuator ",";
   Reader.TWord "app_message"; Reader.TPunctuator ":";
   Reader.TString (app_message error); Reader.TPunctuator ",";
   Reader.TWord "post_title"; Reader.TPunctuator ":";
   value_token (post_title error); Reader.TPunctuator ",";
   Reader.TWord "post_body"; Reader.TPunctuator ":";
   value_token (post_body error)]
  ++ (if truthy (_discussion_link error)
      then [Reader.TPunctuator ","; Reader.TWord "_discussion_link"; Reader.TPunctuator ":";
            value_token (_discussion_link error)]
      else [])
  ++ [Reader.TPunctuator "}"].

(** ** Observations on traces *)

Definition is_request (ev : Event) : bool :=
  match ev with
  | Request _ _ => true
  | _ => false
  end.

Definition is_writeback (ev : Event) : bool :=
  match ev with
  | Writeback _ => true
  | _ => false
  end.

(** The URLs returned by the create mutations of a trace, in order. *)
Definition created_urls (evs : list Event) : list string :=
  omap (fun ev =>
          match ev with
          | Request (CreateDiscussion _ _ _ _) (inr url) => Some url
          | _ => None
          end) evs.

(** The create and update mutations sent, whatever the answer. *)
Definition is_create (ev : Event) : bool :=
  match ev with
  | Request (CreateDiscussion _ _ _ _) _ => true
  | _ => false
  end.

Definition is_update (ev : Event) : bool :=
  match ev with
  | Request (UpdateDiscussion _ _ _) _ => true
  | _ => false
  end.

(** The ids of the delete mutations sent, and whether one failed. *)
Definition deleted_ids (evs : list Event) : list string :=
  omap (fun ev =>
          match ev with
          | Request (DeleteDiscussion id) _ => Some id
          | _ => None
          end) evs.

Definition is_failed_delete (ev : Event) : bool :=
  match ev with
  | Request (DeleteDiscussion _) (inl _) => true
  | _ => false
  end.

(** The discussions a [GetDiscussions] query of the trace returned. *)
Definition fetched_discussions (evs : list Event) : list (list DiscussionNode) :=
  omap (fun ev =>
          match ev with
          | Request (GetDiscussions _ _ _) (inr nodes) => Some nodes
          | _ => None
          end) evs.

Definition count {A : Type} (p : A -> bool) (l : list A) : nat :=
  length (List.filter p l).

(** ** Shapes of git remotes *)

(** [s] has no character [c]. *)
Definition lacks (c : ascii) (s : string) : bool :=
  string_forall (fun x => negb (ascii_eqb x c)) s.

(** A name between the separators of an SSH remote. *)
Definition ssh_name (s : string) : bool :=
  truthy_string s && lacks ":" s && lacks "/" s.

(** A path segment that the URL parser leaves as it is: no separator, no
    character that it percent-encodes. *)
Definition plain_segment (s : string) : bool :=
  truthy_string s
  && string_forall (fun c => negb (URL.is_slash true c)
                             && negb (URL.in_path_percent_encode_set c)) s.

Definition dot_segment (s : string) : bool :=
  URL.is_single_dot s || URL.is_double_dot s.

(** [sub] occurs in [s]. *)
Fixpoint contains (sub s : string) : bool :=
  startsWith s sub
  || match s with
     | String _ r => contains sub r
     | EmptyString => false
     end.

(** The characters of a host name and of a port. *)
Definition is_host_port_char (c : ascii) : bool :=
  is_alnum c || ascii_eqb c "-" || ascii_eqb c "." || ascii_eqb c ":".

(** An authority that the URL parser accepts for [http] and [https]
    without IDNA processing having a say: a host name made of letters,
    digits, hyphens and dots, without punycode label, and possibly a colon
    and a port. *)
Definition plain_authority (s : string) : bool :=
  string_forall (fun c => negb (URL.is_c0_or_space c)
                          && negb (URL.is_authority_end true c)) s
  && string_forall is_host_port_char s
  && negb (contains "xn--" (string_map URL.lower s))
  && URL.valid_authority true s.

(** The entries once the URLs returned by the create mutations, in order,
    are attached to those that had no link. *)
Fixpoint attach (errs : list SherrorError) (urls : list string) : list SherrorError :=
  match errs with
  | [] => []
  | e :: rest =>
      if truthy (_discussion_link e) then e :: attach rest urls
      else
        match urls with
        | url :: urls' => with_link e url :: attach rest urls'
        | [] => e :: attach rest []
        end
  end.

(** Every update mutation of the trace comes right after the fetch of the
    discussion it updates, and changes its title or its body. *)
Definition updates_follow_a_difference (evs : list Event) : Prop :=
  forall (k : nat) (id new_title new_body : string) (res : result string),
    evs !! k = Some (Request (UpdateDiscussion id new_title new_body) res) ->
    exists (k' : nat) (owner repo : string) (num : number) (disc : Discussion),
      k = S k'
      /\ evs !! k' = Some (Request (GetDiscussion owner repo num) (inr (Some (Some disc))))
      /\ discussion_id disc = id
      /\ (title disc <> new_title \/ body disc <> new_body).

(** The answer [requestGraphQL] gives for what [fetch] gave. *)
Definition answer {T : Type} (fr : FetchResult T) : result T :=
  match fr with
  | Rejected e => inl e
  | NotOk status text =>
      inl (Error ("GitHub GraphQL error " +:+ string_of_Z status +:+ ": " +:+ text))
  | BodyErrors pretty => inl (Error ("GraphQL errors: " +:+ pretty))
  | BodyData data => inr data
  end.

(** The state after a step that has changed the world and the
    configuration and has added [evs] to the trace. *)
Definition after {World : Type} (s : State World) (w : World) (cfg : SherrorConfig)
    (evs : list Event) : State World :=
  mkState w (mkClient (ghToken (this s)) cfg (project (this s))) (disk s) (trace s ++ evs).

(** The entries that have no link yet. *)
Definition lacks_link (e : SherrorError) : bool := negb (truthy (_discussion_link e)).

(** Whether some entry has a link that [clear] will remove. *)
Definition has_link (errs : option (list SherrorError)) : bool :=
  existsb (fun error => truthy (_discussion_link error)) (default [] errs).

(** The entries once [clear] has removed their links. *)
Definition strip_links (errs : option (list SherrorError)) : option (list SherrorError) :=
  match errs with
  | Some l => Some (strip_link <$> l)
  | None => None
  end.

Definition node_ids (nodes : list DiscussionNode) : list string := map node_id nodes.

(** The artifact after a write-back, as a function of the entries and of
    the artifact before: the navigation and the rewriting of
    [writebackConfig] without the state around them. *)
Definition rewrite_source_file (writer : Writer) (errs : list SherrorError)
    (sf : SourceFile) : result SourceFile :=
  let decls :=
    if has_length (exports_get sf "default") then exports_get sf "default"
    else exports_get sf "config" in
  match decls with
  | Some (position :: _) =>
      match rewrite_declaration writer errs (statements sf !! position) with
      | inr decl => inr {| statements := <[position := decl]> (statements sf);
                           exported := exported sf |}
      | inl e => inl e
      end
  | _ => inl (Error "No 'export config' found")
  end.

(** The source file [writebackConfig] works on. *)
Definition source_file {World : Type} (s : State World) : option SourceFile :=
  match project (this s) with
  | Some sf => Some sf
  | None => disk s
  end.

(** What a write-back leaves: the client, the artifact on disk and the
    result, as a function of the client and of the disk before. *)
Definition writeback_outcome (writer : Writer) (c : Client) (d : option SourceFile)
  : Client * option SourceFile * result unit :=
  let cfg := sherrorConfig c in
  if negb (truthy (category_name cfg)) || negb (defined (errors cfg)) then
    (c, d, inl invalid_config)
  else
    match (match project c with Some sf => Some sf | None => d end) with
    | None => (c, d, inl (Error "File not found: sherror.config.ts"))
    | Some sf =>
        match rewrite_source_file writer (default [] (errors cfg)) sf with
        | inr sf' => (mkClient (ghToken c) cfg (Some sf'), Some sf', inr tt)
        | inl e => (mkClient (ghToken c) cfg (Some sf), d, inl e)
        end
    end.

(** [text] is what the writer has made of the literal of [error]. *)
Definition written (writer : Writer) (error : SherrorError) (text : string) : Prop :=
  (exists (elements : list string) (index : nat),
      text = replaceWithText writer elements index (objText error))
  \/ (exists elements : list string, text = addElement writer elements (objText error)).

(** The properties of the configuration where the lines of the elements of
    the [errors] array are without their indentation. *)
Fixpoint unindent_errors (props : list Property) : list Property :=
  match props with
  | [] => []
  | p :: rest =>
      if is_errors_property p then
        match p with
        | PropertyAssignment name (ArrayLiteralExpression elements) =>
            PropertyAssignment name (ArrayLiteralExpression (map unindent elements)) :: rest
        | _ => props
        end
      else p :: unindent_errors rest
  end.

Definition unindent_initializer (init : Expression) : Expression :=
  match init with
  | SatisfiesExpression (ObjectLiteralExpression props) type_text =>
      SatisfiesExpression (ObjectLiteralExpression (unindent_errors props)) type_text
  | ObjectLiteralExpression props => ObjectLiteralExpression (unindent_errors props)
  | _ => init
  end.

Definition unindent_declaration (decl : Declaration) : Declaration :=
  match decl with
  | VariableDeclaration name (Some init) =>
      VariableDeclaration name (Some (unindent_initializer init))
  | _ => decl
  end.

(** The artifact where the lines of the elements of the [errors] array of
    the exported configuration are without their indentation; nothing else
    is changed. *)
Definition unindent_source_file (sf : SourceFile) : SourceFile :=
  let decls :=
    if has_length (exports_get sf "default") then exports_get sf "default"
    else exports_get sf "config" in
  match decls with
  | Some (position :: _) =>
      {| statements := alter unindent_declaration position (statements sf);
         exported := exported sf |}
  | _ => sf
  end.

(** A computation is quiet when it sends no request, does not invoke the
    write-back, and leaves the world and the configuration as they are. *)
Definition quiet {World A : Type} (m : M World A) : Prop :=
  forall s : State World,
    exists evs : list Event,
      trace (m s).1 = trace s ++ evs
      /\ Forall (fun ev => is_request ev = false /\ is_writeback ev = false) evs
      /\ sherrorConfig (this (m s).1) = sherrorConfig (this s)
      /\ world (m s).1 = world s.

(** * Verification *)

(** ** Construction *)

(** C4, as the code has it: construction succeeds exactly when the token is
    a non-empty string, [category_name] is a non-empty string and [errors]
    is defined; the client then holds the configuration it was given. The
    length of [errors] plays no part. *)
Theorem construction_checks (token : option string) (config : SherrorConfig) :
  match new_SherrorClient token config with
  | inr client =>
      truthy token = true /\ truthy (category_name config) = true
      /\ defined (errors config) = true /\ sherrorConfig client = config
  | inl _ =>
      truthy token = false \/ truthy (category_name config) = false
      \/ errors config = None
  end.
Proof.
  unfold new_SherrorClient.
  destruct (truthy token) eqn:Htoken; simpl; [| by left].
  destruct (truthy (category_name config)) eqn:Hname; simpl; [| by right; left].
  destruct (errors config) as [errs |] eqn:Herrs; simpl; [done | by right; right].
Qed.

(** C4 fails as stated: a configuration whose error sequence is empty is
    accepted. *)
Lemma construction_accepts_empty_errors :
  new_SherrorClient (Some "token")
    {| category_name := Some "sherror-example"; errors := Some []; printer := None |}
  = inr {| ghToken := "token";
           sherrorConfig := {| category_name := Some "sherror-example";
                               errors := Some []; printer := None |};
           project := None |}.
Proof. reflexivity. Qed.

(** ** The accessor *)

Section AccessorFacts.

Variable colorize : string -> string.

Lemma find_none_code (errs : list SherrorError) (code : Z) :
  Forall (fun e => error_code e <> code) errs ->
  List.find (fun e => error_code e =? code) errs = None.
Proof.
  induction 1 as [| e errs Hne _ IH]; simpl; [done |].
  destruct (Z.eqb_spec (error_code e) code); [done | exact IH].
Qed.

Lemma find_first_code (before after : list SherrorError) (e : SherrorError) :
  Forall (fun e' => error_code e' <> error_code e) before ->
  List.find (fun e' => error_code e' =? error_code e) (before ++ e :: after) = Some e.
Proof.
  induction 1 as [| e' before Hne _ IH]; simpl.
  - by rewrite Z.eqb_refl.
  - destruct (Z.eqb_spec (error_code e') (error_code e)); [done | exact IH].
Qed.

(** C7: a code that no entry carries makes [get] throw, and nothing is
    returned; when several entries carry the code, the handle is built from
    the first of them in declaration order. *)
Theorem get_absent_or_first (this : Client) (errs : list SherrorError) :
  errors (sherrorConfig this) = Some errs ->
  (forall code : Z,
      Forall (fun e => error_code e <> code) errs ->
      get colorize this code
      = inl (Error ("Error code " +:+ string_of_Z code +:+ " not found in config")))
  /\ (forall (before after : list SherrorError) (e : SherrorError),
        errs = before ++ e :: after ->
        Forall (fun e' => error_code e' <> error_code e) before ->
        exists h : Handle,
          get colorize this (error_code e) = inr h
          /\ handle_error h
             = {| error_code := error_code e;
                  app_message := colorize (app_message e);
                  post_title := post_title e;
                  post_body := post_body e;
                  _discussion_link := _discussion_link e |}
          /\ exit h = error_code e).
Proof using Type.
  intros Herrs. split.
  - intros code Habsent. unfold get. rewrite Herrs.
    by rewrite (find_none_code errs code Habsent).
  - intros before after e -> Hfirst. unfold get. rewrite Herrs.
    rewrite (find_first_code before after e Hfirst). eauto.
Qed.

End AccessorFacts.

(** A configuration in which two entries share code 7: code 9 is absent,
    and code 7 gives the first of the two. *)
Lemma get_absent_or_first_witness :
  let first := {| error_code := 7; app_message := "first"; post_title := Some "a";
                  post_body := Some "b"; _discussion_link := None |} in
  let second := {| error_code := 7; app_message := "second"; post_title := Some "c";
                   post_body := Some "d"; _discussion_link := None |} in
  let this := {| ghToken := "token";
                 sherrorConfig := Examples.config [Examples.error1 None; first; second];
                 project := None |} in
  get (fun s => s) this 9 = inl (Error "Error code 9 not found in config")
  /\ exists h, get (fun s => s) this 7 = inr h /\ handle_error h = first.
Proof.
  intros first second this.
  destruct (get_absent_or_first (fun s => s) this
              [Examples.error1 None; first; second] eq_refl) as [Habsent Hfirst].
  split.
  - apply (Habsent 9). repeat constructor; simpl; lia.
  - destruct (Hfirst [Examples.error1 None] [second] first eq_refl) as (h & Hget & Herr & _).
    + repeat constructor; simpl; lia.
    + exists h. split; [exact Hget | exact Herr].
Defined.

(** ** Discussion numbers *)

(** C10: a link that is a URL with a non-numeric last segment gives [NaN]
    without any failure, and [parseDiscussionNumber] throws exactly when the
    link is not a URL, always with the invalid-link error. *)
Theorem parseDiscussionNumber_NaN :
  parseDiscussionNumber "https://host/discussions/abc" = inr NaN
  /\ (forall link : string,
         URL.pathname link = None
         <-> parseDiscussionNumber link = inl (Error ("Invalid discussion link: " +:+ link)))
  /\ (forall (link : string) (e : Exn),
         parseDiscussionNumber link = inl e -> URL.pathname link = None).
Proof.
  split; [reflexivity |]. split.
  - intros link. unfold parseDiscussionNumber.
    destruct (URL.pathname link); split; congruence.
  - intros link e. unfold parseDiscussionNumber.
    by destruct (URL.pathname link).
Qed.

(** Facts about single characters are settled by enumeration. *)
Ltac by_ascii c :=
  destruct c as [[|] [|] [|] [|] [|] [|] [|] [|]]; try reflexivity; try discriminate.

(** ** Strings *)

#[local] Arguments String.append !s1 s2 / : simpl nomatch.

Section StringFacts.

Lemma append_assoc (a b c : string) : (a +:+ b) +:+ c = a +:+ (b +:+ c).
Proof. induction a as [| x a IH]; simpl; [done | by rewrite IH]. Qed.

Lemma append_empty_r (a : string) : a +:+ EmptyString = a.
Proof. induction a as [| x a IH]; simpl; [done | by rewrite IH]. Qed.

Lemma length_append (a b : string) :
  String.length (a +:+ b) = (String.length a + String.length b)%nat.
Proof. induction a as [| x a IH]; simpl; [done | by rewrite IH]. Qed.

Lemma string_forall_app (p : ascii -> bool) (a b : string) :
  string_forall p (a +:+ b) = string_forall p a && string_forall p b.
Proof.
  induction a as [| x a IH]; simpl; [done |]. rewrite IH. by rewrite andb_assoc.
Qed.

Lemma string_forall_impl (p q : ascii -> bool) (s : string) :
  (forall c, p c = true -> q c = true) ->
  string_forall p s = true -> string_forall q s = true.
Proof.
  intros Hpq. induction s as [| x s IH]; simpl; [done |].
  intros [Hx Hs]%andb_prop. rewrite (Hpq x Hx). simpl. by apply IH.
Qed.

Lemma span_stop (p : ascii -> bool) (a : string) (c : ascii) (r : string) :
  string_forall p a = true -> p c = false ->
  span p (a +:+ String c r) = (a, String c r).
Proof.
  intros Ha Hc. induction a as [| x a IH]; simpl in *.
  - by rewrite Hc.
  - apply andb_prop in Ha as [Hx Ha]. rewrite Hx. by rewrite (IH Ha).
Qed.

Lemma span_all (p : ascii -> bool) (a : string) :
  string_forall p a = true -> span p a = (a, EmptyString).
Proof.
  induction a as [| x a IH]; simpl; [done |].
  intros [Hx Ha]%andb_prop. rewrite Hx. by rewrite (IH Ha).
Qed.

Lemma string_filter_all (p : ascii -> bool) (a : string) :
  string_forall p a = true -> string_filter p a = a.
Proof.
  induction a as [| x a IH]; simpl; [done |].
  intros [Hx Ha]%andb_prop. rewrite Hx. by rewrite (IH Ha).
Qed.

Lemma drop_while_end_app (p : ascii -> bool) (a b : string) :
  drop_while_end p b <> EmptyString ->
  drop_while_end p (a +:+ b) = a +:+ drop_while_end p b.
Proof.
  intros Hb. induction a as [| x a IH]; simpl; [done |].
  rewrite IH. destruct (a +:+ drop_while_end p b) eqn:Heq; [| done].
  destruct a; simpl in Heq; [done | discriminate].
Qed.

Lemma split_by_stop (p : ascii -> bool) (a : string) (c : ascii) (r : string) :
  string_forall (fun x => negb (p x)) a = true -> p c = true ->
  split_by p (a +:+ String c r) = a :: split_by p r.
Proof.
  intros Ha Hc. induction a as [| x a IH]; simpl in *.
  - by rewrite Hc.
  - apply andb_prop in Ha as [Hx Ha]. apply negb_true_iff in Hx. rewrite Hx.
    by rewrite (IH Ha).
Qed.

Lemma split_by_all (p : ascii -> bool) (a : string) :
  string_forall (fun x => negb (p x)) a = true -> split_by p a = [a].
Proof.
  induction a as [| x a IH]; simpl; [done |].
  intros [Hx Ha]%andb_prop. apply negb_true_iff in Hx. rewrite Hx.
  by rewrite (IH Ha).
Qed.

Lemma replace_dot_git_end_app (a : string) : replace_dot_git_end (a +:+ ".git") = a.
Proof.
  induction a as [| x a IH]; [reflexivity |].
  change (String x a +:+ ".git") with (String x (a +:+ ".git")).
  unfold replace_dot_git_end; fold replace_dot_git_end.
  destruct (String.eqb_spec (String x (a +:+ ".git")) ".git") as [Heq | _].
  - apply (f_equal String.length) in Heq. simpl in Heq.
    rewrite length_append in Heq. simpl in Heq. lia.
  - by rewrite IH.
Qed.

Lemma percent_encode_plain (set : ascii -> bool) (a : string) :
  string_forall (fun c => negb (set c)) a = true -> URL.percent_encode set a = a.
Proof.
  induction a as [| x a IH]; simpl; [done |].
  intros [Hx Ha]%andb_prop. apply negb_true_iff in Hx. rewrite Hx. simpl.
  by rewrite (IH Ha).
Qed.

Lemma truthy_string_cons (s : string) :
  truthy_string s = true -> exists c r, s = String c r.
Proof. destruct s; [done | eauto]. Qed.

End StringFacts.

(** ** Git remotes *)

Section GitRemoteFacts.

Lemma split_owner_repo (owner repo : string) :
  lacks "/" owner = true -> lacks "/" repo = true ->
  split "/" (owner +:+ "/" +:+ repo) = [owner; repo].
Proof.
  intros Howner Hrepo. unfold split.
  change (owner +:+ "/" +:+ repo) with (owner +:+ String "/" repo).
  rewrite split_by_stop; [| exact Howner | reflexivity].
  by rewrite split_by_all.
Qed.

(** The part of [parseGitRemote] after the path has been found. *)
Lemma finish_owner_repo (owner repo : string) :
  truthy_string owner = true -> truthy_string repo = true ->
  lacks "/" owner = true -> lacks "/" repo = true ->
  let path := replace_dot_git_end (owner +:+ "/" +:+ repo +:+ ".git") in
  let parts := split "/" path in
  (if negb (truthy (parts !! 0%nat)) || negb (truthy (parts !! 1%nat))
   then Throw (Error ("Invalid git remote path: " +:+ path))
   else Ok (default EmptyString (parts !! 0%nat), default EmptyString (parts !! 1%nat)))
  = inr (owner, repo).
Proof.
  intros Ho Hr Hos Hrs. cbv zeta.
  replace (owner +:+ "/" +:+ repo +:+ ".git") with ((owner +:+ "/" +:+ repo) +:+ ".git")
    by (by rewrite !append_assoc).
  rewrite replace_dot_git_end_app, split_owner_repo by done. simpl.
  by rewrite Ho, Hr.
Qed.

Lemma parseGitRemote_ssh (host owner repo : string) :
  lacks ":" host = true -> ssh_name owner = true -> ssh_name repo = true ->
  parseGitRemote ("git@" +:+ host +:+ ":" +:+ owner +:+ "/" +:+ repo +:+ ".git")
  = inr (owner, repo).
Proof.
  unfold ssh_name. intros Hhost [[Ho Hoc]%andb_prop Hos]%andb_prop
    [[Hr Hrc]%andb_prop Hrs]%andb_prop.
  unfold parseGitRemote.
  replace (startsWith ("git@" +:+ host +:+ ":" +:+ owner +:+ "/" +:+ repo +:+ ".git") "git@")
    with true by reflexivity.
  assert (Hsplit : split ":" ("git@" +:+ host +:+ ":" +:+ owner +:+ "/" +:+ repo +:+ ".git")
                   = ["git@" +:+ host; owner +:+ "/" +:+ repo +:+ ".git"]).
  { unfold split.
    replace ("git@" +:+ host +:+ ":" +:+ owner +:+ "/" +:+ repo +:+ ".git")
      with (("git@" +:+ host) +:+ String ":" (owner +:+ "/" +:+ repo +:+ ".git"))
      by (by rewrite append_assoc).
    rewrite split_by_stop; [| | reflexivity].
    - rewrite split_by_all; [done |].
      fold (lacks ":" (owner +:+ "/" +:+ repo +:+ ".git")). unfold lacks in *.
      rewrite !string_forall_app, Hoc, Hrc. reflexivity.
    - fold (lacks ":" ("git@" +:+ host)). unfold lacks in *.
      rewrite string_forall_app, Hhost. reflexivity. }
  rewrite Hsplit. simpl lookup. cbv beta iota.
  by apply finish_owner_repo.
Qed.

Lemma not_encoded_not_tab (c : ascii) :
  negb (URL.is_slash true c) && negb (URL.in_path_percent_encode_set c) = true ->
  negb (URL.is_tab_or_newline c) = true.
Proof. by_ascii c. Qed.

Lemma not_encoded_not_path_end (c : ascii) :
  negb (URL.is_slash true c) && negb (URL.in_path_percent_encode_set c) = true ->
  negb (URL.is_path_end c) = true.
Proof. by_ascii c. Qed.

Lemma not_encoded_not_slash (c : ascii) :
  negb (URL.is_slash true c) && negb (URL.in_path_percent_encode_set c) = true ->
  negb (URL.is_slash true c) = true.
Proof. by_ascii c. Qed.

Lemma not_encoded_not_set (c : ascii) :
  negb (URL.is_slash true c) && negb (URL.in_path_percent_encode_set c) = true ->
  negb (URL.in_path_percent_encode_set c) = true.
Proof. by_ascii c. Qed.

Lemma not_encoded_lacks_slash (c : ascii) :
  negb (URL.is_slash true c) && negb (URL.in_path_percent_encode_set c) = true ->
  negb (ascii_eqb c "/") = true.
Proof. by_ascii c. Qed.

Lemma visible_not_tab (c : ascii) :
  negb (URL.is_c0_or_space c) && negb (URL.is_authority_end true c) = true ->
  negb (URL.is_tab_or_newline c) = true.
Proof. by_ascii c. Qed.

Lemma visible_not_authority_end (c : ascii) :
  negb (URL.is_c0_or_space c) && negb (URL.is_authority_end true c) = true ->
  negb (URL.is_authority_end true c) = true.
Proof. by_ascii c. Qed.

Lemma string_map_app (f : ascii -> ascii) (a b : string) :
  string_map f (a +:+ b) = string_map f a +:+ string_map f b.
Proof. induction a as [| x a IH]; simpl; [done | by rewrite IH]. Qed.

(** A segment ending in [.git] is neither [.] nor [..] in any spelling. *)
Lemma dot_git_not_dot (repo : string) : dot_segment (repo +:+ ".git") = false.
Proof.
  unfold dot_segment, URL.is_single_dot, URL.is_double_dot, URL.mem.
  rewrite string_map_app. change (string_map URL.lower ".git") with ".git".
  generalize (string_map URL.lower repo) as x. intros x. simpl.
  repeat match goal with
  | |- context [String.eqb ?a ?b] =>
      destruct (String.eqb_spec a b) as [Heq | _];
      [ exfalso; destruct x as [| c1 [| c2 [| c3 x]]]; simpl in Heq; try congruence;
        apply (f_equal String.length) in Heq; simpl in Heq;
        rewrite ?length_append in Heq; simpl in Heq; lia
      | ]
  end.
  reflexivity.
Qed.

Lemma plain_segment_facts (s : string) :
  plain_segment s = true ->
  truthy_string s = true /\ lacks "/" s = true
  /\ string_forall (fun c => negb (URL.is_tab_or_newline c)) s = true
  /\ string_forall (fun c => negb (URL.is_path_end c)) s = true
  /\ string_forall (fun c => negb (URL.is_slash true c)) s = true
  /\ string_forall (fun c => negb (URL.in_path_percent_encode_set c)) s = true.
Proof.
  unfold plain_segment, lacks. intros [Ht Hall]%andb_prop.
  repeat split; [done | ..];
    (eapply string_forall_impl; [| exact Hall]);
    [ apply not_encoded_lacks_slash | apply not_encoded_not_tab
    | apply not_encoded_not_path_end | apply not_encoded_not_slash
    | apply not_encoded_not_set ].
Qed.

Lemma plain_authority_facts (s : string) :
  plain_authority s = true ->
  (exists c r, s = String c r /\ URL.is_slash true c = false)
  /\ string_forall (fun c => negb (URL.is_tab_or_newline c)) s = true
  /\ string_forall (fun c => negb (URL.is_authority_end true c)) s = true
  /\ URL.valid_authority true s = true.
Proof.
  unfold plain_authority. intros [[[Hall _]%andb_prop _]%andb_prop Hvalid]%andb_prop.
  repeat split; [| | | done].
  - destruct s as [| c r]; [discriminate Hvalid |].
    exists c, r. split; [done |]. simpl in Hall.
    apply andb_prop in Hall as [Hc _]. revert Hc. by_ascii c.
  - eapply string_forall_impl; [apply visible_not_tab | exact Hall].
  - eapply string_forall_impl; [apply visible_not_authority_end | exact Hall].
Qed.

(** The pathname of [scheme://authority/owner/repo.git]. *)
Lemma pathname_owner_repo (scheme authority owner repo : string) :
  scheme = "http" \/ scheme = "https" ->
  plain_authority authority = true ->
  plain_segment owner = true -> dot_segment owner = false ->
  plain_segment repo = true ->
  URL.pathname (scheme +:+ "://" +:+ authority +:+ "/" +:+ owner +:+ "/" +:+ repo +:+ ".git")
  = Some ("/" +:+ owner +:+ "/" +:+ repo +:+ ".git").
Proof.
  intros Hscheme Hauth Howner Hdot Hrepo.
  apply plain_authority_facts in Hauth as ((a & auth & -> & Ha) & Hauth_tab & Hauth_end & Hvalid).
  apply plain_segment_facts in Howner as (_ & _ & Ho_tab & Ho_end & Ho_slash & Ho_set).
  apply plain_segment_facts in Hrepo as (_ & _ & Hr_tab & Hr_end & Hr_slash & Hr_set).
  set (tail := owner +:+ "/" +:+ repo +:+ ".git").
  set (rest := String a auth +:+ "/" +:+ tail).
  assert (Htail_tab : string_forall (fun c => negb (URL.is_tab_or_newline c)) tail = true).
  { unfold tail. by rewrite !string_forall_app, Ho_tab, Hr_tab. }
  assert (Hrest_tab : string_forall (fun c => negb (URL.is_tab_or_newline c)) rest = true).
  { unfold rest. by rewrite !string_forall_app, Hauth_tab, Htail_tab. }
  assert (Htrim : forall prefix : string,
             drop_while_end URL.is_c0_or_space (prefix +:+ rest) = prefix +:+ rest).
  { intros prefix. unfold rest, tail.
    replace (prefix +:+ String a auth +:+ "/" +:+ owner +:+ "/" +:+ repo +:+ ".git")
      with ((prefix +:+ String a auth +:+ "/" +:+ owner +:+ "/" +:+ repo) +:+ ".git")
      by (by rewrite !append_assoc).
    by rewrite drop_while_end_app. }
  assert (Hpath : URL.authority_then_path true rest = Some ("/" +:+ tail)).
  { unfold URL.authority_then_path, rest.
    change (String a auth +:+ "/" +:+ tail) with (String a auth +:+ String "/" tail).
    rewrite span_stop; [| exact Hauth_end | reflexivity].
    rewrite Hvalid. f_equal.
    change (URL.path_start true (String "/" tail)) with (URL.list_pathname true tail).
    unfold URL.list_pathname. rewrite span_all.
    2:{ unfold tail. by rewrite !string_forall_app, Ho_end, Hr_end. }
    simpl fst. unfold tail at 1.
    change (owner +:+ "/" +:+ repo +:+ ".git") with (owner +:+ String "/" (repo +:+ ".git")).
    rewrite split_by_stop; [| exact Ho_slash | reflexivity].
    rewrite split_by_all by (by rewrite string_forall_app, Hr_slash).
    unfold dot_segment in Hdot. apply orb_false_elim in Hdot as [Hsingle Hdouble].
    pose proof (dot_git_not_dot repo) as Hgit.
    unfold dot_segment in Hgit. apply orb_false_elim in Hgit as [Hgit1 Hgit2].
    simpl. rewrite Hsingle, Hdouble, Hgit1, Hgit2. simpl.
    rewrite !percent_encode_plain; [done | | exact Ho_set].
    by rewrite string_forall_app, Hr_set. }
  unfold URL.pathname.
  destruct Hscheme as [-> | ->].
  - change ("http" +:+ "://" +:+ rest) with ("http://" +:+ rest).
    replace (drop_while URL.is_c0_or_space ("http://" +:+ rest)) with ("http://" +:+ rest)
      by reflexivity.
    rewrite Htrim, string_filter_all by (by rewrite string_forall_app, Hrest_tab).
    replace (URL.parse_scheme ("http://" +:+ rest)) with (Some ("http", "//" +:+ rest))
      by reflexivity.
    unfold URL.after_scheme. simpl String.eqb. simpl URL.is_special. cbv iota.
    replace (drop_while (URL.is_slash true) ("//" +:+ rest)) with rest; [exact Hpath |].
    unfold rest. simpl. by rewrite Ha.
  - change ("https" +:+ "://" +:+ rest) with ("https://" +:+ rest).
    replace (drop_while URL.is_c0_or_space ("https://" +:+ rest)) with ("https://" +:+ rest)
      by reflexivity.
    rewrite Htrim, string_filter_all by (by rewrite string_forall_app, Hrest_tab).
    replace (URL.parse_scheme ("https://" +:+ rest)) with (Some ("https", "//" +:+ rest))
      by reflexivity.
    unfold URL.after_scheme. simpl String.eqb. simpl URL.is_special. cbv iota.
    replace (drop_while (URL.is_slash true) ("//" +:+ rest)) with rest; [exact Hpath |].
    unfold rest. simpl. by rewrite Ha.
Qed.

Lemma parseGitRemote_http (scheme authority owner repo : string) :
  scheme = "http" \/ scheme = "https" ->
  plain_authority authority = true ->
  plain_segment owner = true -> dot_segment owner = false ->
  plain_segment repo = true ->
  parseGitRemote (scheme +:+ "://" +:+ authority +:+ "/" +:+ owner +:+ "/" +:+ repo +:+ ".git")
  = inr (owner, repo).
Proof.
  intros Hscheme Hauth Howner Hdot Hrepo.
  pose proof (pathname_owner_repo scheme authority owner repo
                Hscheme Hauth Howner Hdot Hrepo) as Hpath.
  apply plain_segment_facts in Howner as (Ho & Hos & _).
  apply plain_segment_facts in Hrepo as (Hr & Hrs & _).
  unfold parseGitRemote. rewrite Hpath.
  destruct Hscheme as [-> | ->]; simpl startsWith; simpl test_http_prefix; cbv iota;
    change (slice1 ("/" +:+ owner +:+ "/" +:+ repo +:+ ".git"))
      with (owner +:+ "/" +:+ repo +:+ ".git");
    by apply finish_owner_repo.
Qed.

Lemma parseGitRemote_unrecognized (remote : string) :
  startsWith remote "git@" = false -> test_http_prefix remote = false ->
  parseGitRemote remote = inl (Error ("Unrecognized git remote URL: " +:+ remote)).
Proof. intros Hssh Hhttp. unfold parseGitRemote. by rewrite Hssh, Hhttp. Qed.

Lemma parseGitRemote_accepted (remote owner repo : string) :
  parseGitRemote remote = inr (owner, repo) ->
  (startsWith remote "git@" = true \/ test_http_prefix remote = true)
  /\ owner <> EmptyString /\ repo <> EmptyString.
Proof.
  unfold parseGitRemote.
  assert (Hfinish : forall path : string,
    (let path0 := replace_dot_git_end path in
     let parts := split "/" path0 in
     if negb (truthy (parts !! 0%nat)) || negb (truthy (parts !! 1%nat))
     then inl (Error ("Invalid git remote path: " +:+ path0))
     else inr (default EmptyString (parts !! 0%nat), default EmptyString (parts !! 1%nat)))
    = inr (owner, repo) -> owner <> EmptyString /\ repo <> EmptyString).
  { intros path. cbv zeta.
    destruct (split "/" (replace_dot_git_end path) !! 0%nat) as [[| c o] |]; simpl; try done.
    destruct (split "/" (replace_dot_git_end path) !! 1%nat) as [[| c' r] |]; simpl; try done.
    intros [= <- <-]. done. }
  destruct (startsWith remote "git@").
  - destruct (split ":" remote !! 1%nat) as [path |]; [| done].
    intros H. split; [by left | by apply (Hfinish path)].
  - destruct (test_http_prefix remote); [| done].
    destruct (URL.pathname remote) as [pathname |]; [| done].
    intros H. split; [by right | by apply (Hfinish (slice1 pathname))].
Qed.

End GitRemoteFacts.

(** C8, as the code has it. The SSH form is recognised by the literal
    prefix [git@]: for a host without a colon, and an owner and a repository
    name that are not empty and have neither a colon nor a slash,
    [git@host:owner/repo.git] gives the owner and the name. The HTTP form is
    recognised by [http://] or [https://]: for an authority that the URL
    parser accepts (a host name of letters, digits, hyphens and dots,
    without punycode label, and possibly a port), and an owner and a name
    that are not empty and that the URL parser leaves as they are (no slash
    or backslash, no character that it percent-encodes, the owner not being
    a dot segment),
    [scheme://authority/owner/repo.git] gives the owner and the name. In
    both forms the final [.git] is removed. Anything with neither prefix is
    refused, and whatever is accepted has a non-empty owner and a non-empty
    repository name. *)
Theorem parseGitRemote_forms :
  (forall host owner repo : string,
      lacks ":" host = true -> ssh_name owner = true -> ssh_name repo = true ->
      parseGitRemote ("git@" +:+ host +:+ ":" +:+ owner +:+ "/" +:+ repo +:+ ".git")
      = inr (owner, repo))
  /\ (forall scheme authority owner repo : string,
        scheme = "http" \/ scheme = "https" ->
        plain_authority authority = true ->
        plain_segment owner = true -> dot_segment owner = false ->
        plain_segment repo = true ->
        parseGitRemote (scheme +:+ "://" +:+ authority +:+ "/" +:+ owner +:+ "/"
                        +:+ repo +:+ ".git")
        = inr (owner, repo))
  /\ (forall remote : string,
        startsWith remote "git@" = false -> test_http_prefix remote = false ->
        parseGitRemote remote = inl (Error ("Unrecognized git remote URL: " +:+ remote)))
  /\ (forall remote owner repo : string,
        parseGitRemote remote = inr (owner, repo) ->
        (startsWith remote "git@" = true \/ test_http_prefix remote = true)
        /\ owner <> EmptyString /\ repo <> EmptyString).
Proof.
  split; [exact parseGitRemote_ssh |].
  split; [exact parseGitRemote_http |].
  split; [exact parseGitRemote_unrecognized | exact parseGitRemote_accepted].
Qed.

Lemma parseGitRemote_forms_witness :
  parseGitRemote ("git@" +:+ "github.com" +:+ ":" +:+ "polyseam" +:+ "/" +:+ "sherror" +:+ ".git")
  = inr ("polyseam", "sherror")
  /\ parseGitRemote ("https" +:+ "://" +:+ "github.com" +:+ "/" +:+ "polyseam" +:+ "/"
                     +:+ "sherror" +:+ ".git")
     = inr ("polyseam", "sherror")
  /\ parseGitRemote "ssh://git@github.com/polyseam/sherror.git"
     = inl (Error "Unrecognized git remote URL: ssh://git@github.com/polyseam/sherror.git").
Proof.
  destruct parseGitRemote_forms as (Hssh & Hhttp & Hother & _).
  split; [| split].
  - apply Hssh; reflexivity.
  - apply Hhttp; [by right | reflexivity ..].
  - apply Hother; reflexivity.
Defined.

(** C8 fails as stated: an SSH remote whose user is not [git] is refused,
    and a remote with additional path segments is accepted. *)
Lemma parseGitRemote_other_user_refused :
  parseGitRemote "alice@github.com:owner/repo.git"
  = inl (Error "Unrecognized git remote URL: alice@github.com:owner/repo.git")
  /\ parseGitRemote "git@github.com:owner/repo/tree/main"
     = inr ("owner", "repo").
Proof. split; reflexivity. Qed.

(** Why the HTTP form has its conditions: the URL parser resolves a dot
    segment, so the owner is lost; it percent-encodes a space, so the owner
    comes back encoded; and it refuses a host that ends in a number and is
    not an IPv4 address. *)
Lemma parseGitRemote_http_limits :
  parseGitRemote "https://github.com/../repo.git"
  = inl (Error "Invalid git remote path: repo")
  /\ parseGitRemote "https://github.com/a b/repo.git" = inr ("a%20b", "repo")
  /\ parseGitRemote "https://1.2.3.999/a/b.git"
     = inl (TypeError "Invalid URL: 'https://1.2.3.999/a/b.git'")
  /\ plain_authority "1.2.3.999" = false
  /\ plain_segment "a b" = false
  /\ dot_segment ".." = true.
Proof. repeat split; reflexivity. Qed.

(** ** Runs of the stateful operations *)

Section OperationsFacts.

Variable World : Type.
Variable fetch : forall q : Query, World -> World * FetchResult (response q).
Variable git_stdout : World -> string.
Variable writer : Writer.

Abbreviation request := (requestGraphQL World fetch).
Abbreviation entry := (sync_entry World fetch).
Abbreviation loop := (sync_loop World fetch).
Abbreviation deletions := (delete_discussions World fetch).

Lemma requestGraphQL_run (q : Query) (s : State World) :
  request q s
  = (mkState (fetch q (world s)).1 (this s) (disk s)
       (trace s ++ [Request q (answer (fetch q (world s)).2)]),
     answer (fetch q (world s)).2).
Proof.
  unfold requestGraphQL.
  destruct (fetch q (world s)) as [w fr]. simpl. by destruct fr.
Qed.

Lemma bind_run {A B : Type} (m : M World A) (f : A -> M World B) (s : State World) :
  (m ≫= f) s
  = match m s with
    | (s', inr a) => f a s'
    | (s', inl e) => (s', inl e)
    end.
Proof. reflexivity. Qed.

Lemma bind_ret {A : Type} (m : M World A) (s : State World) : (m ≫= mret) s = m s.
Proof. rewrite bind_run. by destruct (m s) as [s' [e | a]]. Qed.

Lemma state_eta (s : State World) : mkState (world s) (this s) (disk s) (trace s) = s.
Proof. by destruct s. Qed.

Lemma client_eta (c : Client) : mkClient (ghToken c) (sherrorConfig c) (project c) = c.
Proof. by destruct c. Qed.

Lemma config_eta (c : SherrorConfig) : mkConfig (category_name c) (errors c) (printer c) = c.
Proof. by destruct c. Qed.

Lemma find_category_none (name : string) (nodes : list Category) :
  Forall (fun c => category_node_name c <> name) nodes ->
  List.find (fun cat => String.eqb (category_node_name cat) name) nodes = None.
Proof.
  induction 1 as [| c nodes Hne _ IH]; simpl; [done |].
  destruct (String.eqb_spec (category_node_name c) name); [done | exact IH].
Qed.

(** C3: when no remote category has the configured name, [sync] logs a
    message that lists the categories that exist, then throws; the only
    request of the run is the repository lookup, so nothing was created or
    updated, no category creation was attempted, and the client and the
    artifact are as before. *)
Theorem sync_category_not_found
    (s : State World) (name owner repo : string) (errs : list SherrorError)
    (repository : Repository) (w' : World) :
  category_name (sherrorConfig (this s)) = Some name ->
  truthy_string name = true ->
  errors (sherrorConfig (this s)) = Some errs ->
  parseGitRemote (trim (git_stdout (world s))) = inr (owner, repo) ->
  fetch (RepoInfo owner repo) (world s) = (w', BodyData (Some repository)) ->
  Forall (fun c => category_node_name c <> name) (discussionCategories repository) ->
  let nodes := discussionCategories repository in
  let message := category_not_found_message name owner repo nodes in
  sync World fetch git_stdout writer s
  = (mkState w' (this s) (disk s)
       (trace s ++ [Request (RepoInfo owner repo) (inr (Some repository)); Log message]),
     inl (category_not_found name))
  /\ message
     = message_before name owner repo
       +:+ join nl ((fun c => "- " +:+ category_node_name c) <$> nodes)
       +:+ message_after name.
Proof using Type.
  intros Hname Htruthy Herrs Hremote Hfetch Hnone nodes message. split.
  - unfold sync. rewrite bind_run. unfold get_config at 1. cbv iota beta.
    rewrite Hname, Herrs. change (truthy (Some name)) with (truthy_string name).
    rewrite Htruthy. change (negb true || negb (defined (Some errs))) with false.
    cbv iota. rewrite bind_run. unfold getGitRemoteUrl at 1. cbv iota beta.
    rewrite bind_run. unfold lift at 1. rewrite Hremote. cbv iota beta.
    rewrite bind_run. unfold requestRepositoryInfo. rewrite requestGraphQL_run.
    rewrite Hfetch. unfold answer, fst, snd. cbv iota beta.
    change (default EmptyString (Some name)) with name.
    rewrite (find_category_none name _ Hnone).
    rewrite bind_run. unfold emit, throw. cbv iota beta. unfold world, this, disk, trace.
    by rewrite <- app_assoc.
  - reflexivity.
Qed.

(** *** Traces *)

Lemma follow_no_update (evs : list Event) :
  Forall (fun ev => is_update ev = false) evs -> updates_follow_a_difference evs.
Proof.
  intros Hall k id t b res Hk.
  apply (Forall_lookup_1 _ _ _ _ Hall) in Hk. discriminate Hk.
Qed.

Lemma follow_app (evs1 evs2 : list Event) :
  updates_follow_a_difference evs1 -> updates_follow_a_difference evs2 ->
  updates_follow_a_difference (evs1 ++ evs2).
Proof.
  intros H1 H2 k id t b res Hk.
  destruct (decide (k < length evs1)%nat) as [Hlt | Hge].
  - rewrite lookup_app_l in Hk by done.
    destruct (H1 k id t b res Hk) as (k' & o & rp & num & disc & -> & Hk' & Hid & Hdiff).
    exists k', o, rp, num, disc. repeat split; try done.
    rewrite lookup_app_l by lia. exact Hk'.
  - rewrite lookup_app_r in Hk by lia.
    destruct (H2 _ id t b res Hk) as (k' & o & rp & num & disc & Heq & Hk' & Hid & Hdiff).
    exists (length evs1 + k')%nat, o, rp, num, disc. repeat split; try done; [lia |].
    rewrite lookup_app_r by lia.
    replace (length evs1 + k' - length evs1)%nat with k' by lia. exact Hk'.
Qed.

Lemma follow_fetch_update (owner repo : string) (num : number) (disc : Discussion)
    (new_title new_body : string) (res : result string) :
  title disc <> new_title \/ body disc <> new_body ->
  updates_follow_a_difference
    [Request (GetDiscussion owner repo num) (inr (Some (Some disc)));
     Request (UpdateDiscussion (discussion_id disc) new_title new_body) res].
Proof.
  intros Hdiff [| [| k]] id t b res' Hk; simpl in Hk; [discriminate Hk | | discriminate Hk].
  exists 0%nat, owner, repo, num, disc.
  inversion Hk; subst. by repeat split.
Qed.

Lemma created_urls_app (evs1 evs2 : list Event) :
  created_urls (evs1 ++ evs2) = created_urls evs1 ++ created_urls evs2.
Proof. unfold created_urls. by rewrite omap_app. Qed.

Lemma count_app {A : Type} (p : A -> bool) (l1 l2 : list A) :
  count p (l1 ++ l2) = (count p l1 + count p l2)%nat.
Proof. unfold count. by rewrite List.filter_app, length_app. Qed.

Lemma count_none {A : Type} (p : A -> bool) (l : list A) :
  Forall (fun x => p x = false) l -> count p l = 0%nat.
Proof.
  unfold count. induction 1 as [| x l Hx _ IH]; simpl; [done |]. by rewrite Hx.
Qed.

(** *** One turn of the loop of [sync] *)

Lemma after_nothing (s : State World) :
  after s (world s) (sherrorConfig (this s)) [] = s.
Proof. unfold after. rewrite app_nil_r, client_eta. apply state_eta. Qed.

Lemma after_after (s : State World) (w1 w2 : World) (cfg1 cfg2 : SherrorConfig)
    (evs1 evs2 : list Event) :
  after (after s w1 cfg1 evs1) w2 cfg2 evs2 = after s w2 cfg2 (evs1 ++ evs2).
Proof. unfold after. simpl. by rewrite app_assoc. Qed.

Lemma config_after (s : State World) (w : World) (cfg : SherrorConfig) (evs : list Event) :
  sherrorConfig (this (after s w cfg evs)) = cfg.
Proof. reflexivity. Qed.

Lemma set_after (s : State World) (w : World) (cfg cfg' : SherrorConfig) (evs : list Event) :
  mkState (world (after s w cfg evs))
    (mkClient (ghToken (this (after s w cfg evs))) cfg' (project (this (after s w cfg evs))))
    (disk (after s w cfg evs)) (trace (after s w cfg evs))
  = after s w cfg' evs.
Proof. reflexivity. Qed.

Lemma request_after (q : Query) (s : State World) :
  request q s
  = (after s (fetch q (world s)).1 (sherrorConfig (this s))
       [Request q (answer (fetch q (world s)).2)],
     answer (fetch q (world s)).2).
Proof. rewrite requestGraphQL_run. unfold after. by rewrite client_eta. Qed.

(** What a turn does: it fails, or it leaves the configuration alone (the
    entry had a link), or it creates a discussion and attaches its URL. *)
Lemma sync_entry_run (owner repo repoId categoryId : string) (index : nat)
    (err : SherrorError) (updated : bool) (s : State World) (errs : list SherrorError) :
  errors (sherrorConfig (this s)) = Some errs ->
  exists (w : World) (evs : list Event) (cfg' : SherrorConfig) (r : result bool),
    entry owner repo repoId categoryId index err updated s = (after s w cfg' evs, r)
    /\ Forall (fun ev => is_request ev = true) evs
    /\ updates_follow_a_difference evs
    /\ ((cfg' = sherrorConfig (this s) /\ created_urls evs = []
         /\ (r = inr updated /\ lacks_link err = false \/ exists e, r = inl e))
        \/ (exists url : string,
               lacks_link err = true /\ created_urls evs = [url] /\ r = inr true
               /\ cfg' = mkConfig (category_name (sherrorConfig (this s)))
                           (Some (alter (fun e => with_link e url) index errs))
                           (printer (sherrorConfig (this s))))).
Proof using Type.
  intros Herrs. unfold sync_entry, lacks_link.
  destruct (post_title err) as [err_title |]; [destruct (post_body err) as [err_body |] |].
  2, 3: (exists (world s), [], (sherrorConfig (this s)); eexists;
         rewrite after_nothing; split; [reflexivity |];
         split; [constructor |]; split; [by apply follow_no_update |];
         left; eauto).
  destruct (truthy (_discussion_link err)) eqn:Hlink.
  - (* the entry has a link *)
    rewrite bind_run. unfold lift at 1.
    destruct (parseDiscussionNumber (default EmptyString (_discussion_link err)))
      as [e | num].
    { exists (world s), [], (sherrorConfig (this s)); eexists.
      rewrite after_nothing. split; [reflexivity |].
      split; [constructor |]. split; [by apply follow_no_update |]. left; eauto. }
    rewrite bind_run, request_after.
    destruct (fetch (GetDiscussion owner repo num) (world s)) as [w1 fr1]. simpl fst; simpl snd.
    destruct (answer fr1) as [e | q] eqn:Hanswer.
    { exists w1, [Request (GetDiscussion owner repo num) (inl e)], (sherrorConfig (this s)).
      eexists. split; [reflexivity |].
      split; [by repeat constructor |].
      split; [apply follow_no_update; by repeat constructor |]. left; eauto. }
    destruct q as [[disc |] |].
    2, 3: (eexists w1, [_], (sherrorConfig (this s)); eexists;
           split; [reflexivity |];
           split; [by repeat constructor |];
           split; [apply follow_no_update; by repeat constructor |]; left; eauto).
    destruct (negb (String.eqb (title disc) err_title)
              || negb (String.eqb (body disc) err_body)) eqn:Hdiff.
    + rewrite bind_run, request_after, after_after.
      set (q := UpdateDiscussion (discussion_id disc) err_title err_body).
      simpl world. simpl sherrorConfig.
      destruct (fetch q w1) as [w2 fr2]. simpl fst; simpl snd.
      exists w2,
        [Request (GetDiscussion owner repo num) (inr (Some (Some disc)));
         Request q (answer fr2)], (sherrorConfig (this s)).
      assert (Hfollow : updates_follow_a_difference
                [Request (GetDiscussion owner repo num) (inr (Some (Some disc)));
                 Request q (answer fr2)]).
      { apply follow_fetch_update.
        apply orb_true_iff in Hdiff as [Ht | Hb]; [left | right];
          apply negb_true_iff in Ht || apply negb_true_iff in Hb;
          by apply String.eqb_neq. }
      destruct (answer fr2) as [e | url].
      * eexists. split; [reflexivity |]. split; [by repeat constructor |].
        split; [exact Hfollow |]. left; eauto.
      * eexists. split; [reflexivity |]. split; [by repeat constructor |].
        split; [exact Hfollow |]. left. eauto.
    + eexists w1, [_], (sherrorConfig (this s)); eexists.
      split; [reflexivity |]. split; [by repeat constructor |].
      split; [apply follow_no_update; by repeat constructor |]. left. eauto.
  - (* the entry has no link *)
    rewrite bind_run, request_after.
    set (q := CreateDiscussion repoId categoryId err_title err_body).
    destruct (fetch q (world s)) as [w1 fr1]. simpl fst; simpl snd.
    destruct (answer fr1) as [e | url].
    { exists w1, [Request q (inl e)], (sherrorConfig (this s)); eexists.
      split; [reflexivity |]. split; [by repeat constructor |].
      split; [apply follow_no_update; by repeat constructor |]. left; eauto. }
    rewrite bind_run. unfold set_discussion_link. rewrite bind_run.
    unfold get_config at 1. cbv iota beta.
    rewrite !config_after, Herrs.
    unfold set_config, mret, M_ret. cbv iota beta. rewrite set_after.
    eexists w1, [Request q (inr url)], _, _.
    split; [reflexivity |]. split; [by repeat constructor |].
    split; [apply follow_no_update; by repeat constructor |].
    right. exists url. eauto.
Qed.

(** *** The loop of [sync] *)

Lemma attach_nil (errs : list SherrorError) : attach errs [] = errs.
Proof.
  induction errs as [| e errs IH]; simpl; [done |].
  rewrite IH. by destruct (truthy (_discussion_link e)).
Qed.

Lemma length_attach (errs : list SherrorError) (urls : list string) :
  length (attach errs urls) = length errs.
Proof.
  revert urls. induction errs as [| e errs IH]; intros urls; simpl; [done |].
  destruct (truthy (_discussion_link e)); [by rewrite <- (IH urls) |].
  destruct urls; simpl; by rewrite IH.
Qed.

(** The loop, run to the end of the list: it fails, or the entries that had
    no link have received, in order, the URLs of the discussions created. *)
Lemma sync_loop_run (owner repo repoId categoryId : string) (turns : nat) :
  forall (index : nat) (updated : bool) (s : State World) (errs : list SherrorError),
    errors (sherrorConfig (this s)) = Some errs ->
    (length errs <= index + turns)%nat ->
    exists (w : World) (evs : list Event) (cfg' : SherrorConfig) (r : result bool),
      loop owner repo repoId categoryId turns index updated s = (after s w cfg' evs, r)
      /\ Forall (fun ev => is_request ev = true) evs
      /\ updates_follow_a_difference evs
      /\ (forall updated' : bool,
            r = inr updated' ->
            cfg' = mkConfig (category_name (sherrorConfig (this s)))
                     (Some (take index errs ++ attach (drop index errs) (created_urls evs)))
                     (printer (sherrorConfig (this s)))
            /\ updated' = updated || negb (bool_decide (created_urls evs = []))
            /\ length (created_urls evs) = count lacks_link (drop index errs)).
Proof using Type.
  assert (Hdone : forall (index : nat) (updated : bool) (s : State World)
                         (errs : list SherrorError),
             errors (sherrorConfig (this s)) = Some errs ->
             (length errs <= index)%nat ->
             exists (w : World) (evs : list Event) (cfg' : SherrorConfig) (r : result bool),
               (s, inr updated) = (after s w cfg' evs, r)
               /\ Forall (fun ev => is_request ev = true) evs
               /\ updates_follow_a_difference evs
               /\ (forall updated' : bool,
                     r = inr updated' ->
                     cfg' = mkConfig (category_name (sherrorConfig (this s)))
                              (Some (take index errs
                                     ++ attach (drop index errs) (created_urls evs)))
                              (printer (sherrorConfig (this s)))
                     /\ updated' = updated || negb (bool_decide (created_urls evs = []))
                     /\ length (created_urls evs) = count lacks_link (drop index errs))).
  { intros index updated s errs Herrs Hlen.
    exists (world s), [], (sherrorConfig (this s)), (inr updated).
    rewrite after_nothing. split; [done |]. split; [constructor |].
    split; [by apply follow_no_update |].
    intros updated' [= <-]. rewrite take_ge, drop_ge by done. simpl.
    rewrite app_nil_r, <- Herrs, config_eta, orb_false_r. done. }
  induction turns as [| turns IH]; intros index updated s errs Herrs Hlen.
  { apply Hdone; [done | lia]. }
  unfold sync_loop; fold (loop owner repo repoId categoryId).
  rewrite bind_run. unfold get_config at 1. cbv iota beta.
  rewrite Herrs. change (default [] (Some errs)) with errs.
  destruct (errs !! index) as [err |] eqn:Hindex.
  2:{ apply Hdone; [done |]. by apply lookup_ge_None. }
  rewrite bind_run.
  destruct (sync_entry_run owner repo repoId categoryId index err updated s errs Herrs)
    as (w1 & evs1 & cfg1 & r1 & -> & Hreq1 & Hfollow1 & Hcases).
  destruct Hcases as [(-> & Hcreated1 & [[-> Hlink] | [e ->]]) | (url & Hlink & Hcreated1 & -> & ->)].
  - (* the entry had a link *)
    destruct (IH (S index) updated (after s w1 (sherrorConfig (this s)) evs1) errs)
      as (w2 & evs2 & cfg2 & r2 & -> & Hreq2 & Hfollow2 & Hok); [done | lia |].
    rewrite after_after. exists w2, (evs1 ++ evs2), cfg2, r2.
    split; [done |]. split; [by apply Forall_app |]. split; [by apply follow_app |].
    intros updated' Hr. destruct (Hok updated' Hr) as (-> & -> & Hcount).
    rewrite created_urls_app, Hcreated1, !app_nil_l.
    rewrite config_after.
    rewrite (take_S_r _ _ _ Hindex), (drop_S _ _ _ Hindex).
    unfold lacks_link in Hlink. apply negb_false_iff in Hlink.
    simpl attach. rewrite Hlink. rewrite <- app_assoc.
    split; [done |]. split; [done |].
    rewrite Hcount. unfold count. simpl. unfold lacks_link at 2. by rewrite Hlink.
  - (* the turn failed *)
    exists w1, evs1, (sherrorConfig (this s)), (inl e).
    split; [done |]. split; [done |]. split; [done |]. by intros updated' [=].
  - (* a discussion was created *)
    set (cfg1 := mkConfig (category_name (sherrorConfig (this s)))
                   (Some (alter (fun e => with_link e url) index errs))
                   (printer (sherrorConfig (this s)))).
    destruct (IH (S index) true (after s w1 cfg1 evs1)
                (alter (fun e => with_link e url) index errs))
      as (w2 & evs2 & cfg2 & r2 & -> & Hreq2 & Hfollow2 & Hok);
      [done | rewrite length_alter; lia |].
    rewrite after_after. exists w2, (evs1 ++ evs2), cfg2, r2.
    split; [done |]. split; [by apply Forall_app |]. split; [by apply follow_app |].
    intros updated' Hr. destruct (Hok updated' Hr) as (-> & -> & Hcount).
    rewrite created_urls_app, Hcreated1.
    change ([url] ++ created_urls evs2) with (url :: created_urls evs2).
    rewrite config_after. unfold cfg1. simpl category_name. simpl printer.
    rewrite drop_alter_lt in Hcount |- * by lia.
    rewrite (take_S_r (alter (fun e => with_link e url) index errs) index (with_link err url))
      by (by rewrite list_lookup_alter_eq, Hindex).
    rewrite take_alter_ge by lia.
    rewrite (drop_S _ _ _ Hindex).
    unfold lacks_link in Hlink. apply negb_true_iff in Hlink.
    simpl attach. rewrite Hlink. rewrite <- app_assoc.
    split; [done |]. split; [by rewrite orb_true_r |].
    simpl length. rewrite Hcount. unfold count. simpl. unfold lacks_link at 2.
    by rewrite Hlink.
Qed.

(** *** Write-back, seen from outside *)

Lemma quiet_pure {A : Type} (m : M World A) :
  (forall s, (m s).1 = s) -> quiet m.
Proof.
  intros Hm s. exists []. rewrite Hm, app_nil_r. by repeat split.
Qed.

Lemma quiet_bind {A B : Type} (m : M World A) (f : A -> M World B) :
  quiet m -> (forall a, quiet (f a)) -> quiet (m ≫= f).
Proof.
  intros Hm Hf s. rewrite bind_run.
  destruct (Hm s) as (evs1 & Htrace1 & Hall1 & Hcfg1 & Hworld1).
  destruct (m s) as [s1 [e | a]]; simpl in *.
  - exists evs1. by repeat split.
  - destruct (Hf a s1) as (evs2 & Htrace2 & Hall2 & Hcfg2 & Hworld2).
    exists (evs1 ++ evs2). rewrite Htrace2, Htrace1, Hcfg2, Hworld2, app_assoc.
    repeat split; try done. by apply Forall_app.
Qed.

Lemma quiet_debug (text : string) : quiet (emit World (Debug text)).
Proof. intros s. exists [Debug text]. simpl. repeat split; by repeat constructor. Qed.

Lemma quiet_set_project (sf : SourceFile) : quiet (set_project World sf).
Proof. intros s. exists []. simpl. rewrite app_nil_r. by repeat split. Qed.

Lemma quiet_addSourceFileAtPath : quiet (addSourceFileAtPath World).
Proof.
  intros s. exists []. unfold addSourceFileAtPath. rewrite app_nil_r.
  destruct (project (this s)); [by repeat split |].
  destruct (disk s); by repeat split.
Qed.

Lemma writeback_run (s : State World) :
  exists wb_evs : list Event,
    trace (writebackConfig World writer s).1
    = trace s ++ Writeback (errors (sherrorConfig (this s))) :: wb_evs
    /\ Forall (fun ev => is_request ev = false /\ is_writeback ev = false) wb_evs
    /\ sherrorConfig (this (writebackConfig World writer s).1) = sherrorConfig (this s)
    /\ world (writebackConfig World writer s).1 = world s.
Proof.
  unfold writebackConfig. rewrite bind_run. unfold get_config at 1. cbv iota beta.
  rewrite bind_run. unfold emit at 1. cbv iota beta.
  set (s1 := mkState (world s) (this s) (disk s)
               (trace s ++ [Writeback (errors (sherrorConfig (this s)))])).
  match goal with |- context [(?m s1).1] => assert (Hquiet : quiet m) end.
  { destruct (negb (truthy (category_name (sherrorConfig (this s))))
              || negb (defined (errors (sherrorConfig (this s))))).
    { by apply quiet_pure. }
    apply quiet_bind; [apply quiet_addSourceFileAtPath |]. intros sourceFile.
    apply quiet_bind.
    { destruct (has_length (exports_get sourceFile "default")); [by apply quiet_pure |].
      apply quiet_bind; [apply quiet_debug |]. intros _. by apply quiet_pure. }
    intros [[| position decls] |]; try by apply quiet_pure.
    apply quiet_bind; [by apply quiet_pure |]. intros configDecl.
    apply quiet_bind; [apply quiet_set_project |]. intros _.
    intros s'. exists []. simpl. rewrite app_nil_r. by repeat split. }
  destruct (Hquiet s1) as (evs & Htrace & Hall & Hcfg & Hworld).
  exists evs. split; [| split; [exact Hall | split; [exact Hcfg | exact Hworld]]].
  rewrite Htrace. unfold s1. simpl. by rewrite <- app_assoc.
Qed.

(** *** A whole run of [sync] *)

Lemma emit_after (ev : Event) (s : State World) (w : World) (cfg : SherrorConfig)
    (evs : list Event) :
  emit World ev (after s w cfg evs) = (after s w cfg (evs ++ [ev]), inr tt).
Proof. unfold emit, after. simpl. by rewrite app_assoc. Qed.

Lemma requests_not_writeback (evs : list Event) :
  Forall (fun ev => is_request ev = true) evs ->
  Forall (fun ev => is_writeback ev = false) evs.
Proof. intros Hall. eapply Forall_impl; [exact Hall |]. by intros []. Qed.

Lemma trace_after (s : State World) (w : World) (cfg : SherrorConfig) (evs : list Event) :
  trace (after s w cfg evs) = trace s ++ evs.
Proof. reflexivity. Qed.

(** The events of a run are those before the write-back, among which every
    update follows a difference, and then either nothing, or the single
    write-back, invoked on entries that carry the URLs created before. *)
Lemma sync_shape (s : State World) :
  exists before post : list Event,
    trace (sync World fetch git_stdout writer s).1 = trace s ++ before ++ post
    /\ Forall (fun ev => is_writeback ev = false) before
    /\ updates_follow_a_difference before
    /\ ((post = []
         /\ ((exists e, (sync World fetch git_stdout writer s).2 = inl e)
             \/ created_urls before = []))
        \/ (exists (errs0 : list SherrorError) (wb_evs : list Event),
               post = Writeback (Some (attach errs0 (created_urls before))) :: wb_evs
               /\ Forall (fun ev => is_request ev = false /\ is_writeback ev = false) wb_evs
               /\ errors (sherrorConfig (this s)) = Some errs0
               /\ created_urls before <> []
               /\ length (created_urls before) = count lacks_link errs0
               /\ errors (sherrorConfig (this (sync World fetch git_stdout writer s).1))
                  = Some (attach errs0 (created_urls before)))).
Proof using Type.
  assert (Hstop : forall (w : World) (evs : list Event) (e : Exn),
             Forall (fun ev => is_writeback ev = false) evs ->
             Forall (fun ev => is_update ev = false) evs ->
             exists before post : list Event,
               trace (after s w (sherrorConfig (this s)) evs) = trace s ++ before ++ post
               /\ Forall (fun ev => is_writeback ev = false) before
               /\ updates_follow_a_difference before
               /\ ((post = [] /\ ((exists e', @inl Exn unit e = inl e') \/ created_urls before = []))
                   \/ (exists (errs0 : list SherrorError) (wb_evs : list Event),
                          post = Writeback (Some (attach errs0 (created_urls before))) :: wb_evs
                          /\ Forall (fun ev => is_request ev = false /\ is_writeback ev = false)
                               wb_evs
                          /\ errors (sherrorConfig (this s)) = Some errs0
                          /\ created_urls before <> []
                          /\ length (created_urls before) = count lacks_link errs0
                          /\ errors (sherrorConfig
                                       (this (after s w (sherrorConfig (this s)) evs)))
                             = Some (attach errs0 (created_urls before))))).
  { intros w evs e Hwb Hup. exists evs, []. rewrite app_nil_r. split; [done |].
    split; [done |]. split; [by apply follow_no_update |]. left. eauto. }
  set (res := sync World fetch git_stdout writer s).
  assert (Hres : res = sync World fetch git_stdout writer s) by reflexivity.
  clearbody res. unfold sync in Hres.
  rewrite bind_run in Hres. unfold get_config at 1 in Hres. cbv iota beta in Hres.
  destruct (negb (truthy (category_name (sherrorConfig (this s))))
            || negb (defined (errors (sherrorConfig (this s))))) eqn:Hvalid.
  { subst res. pose proof (Hstop (world s) [] invalid_config) as Hnow.
    rewrite after_nothing in Hnow. by apply Hnow. }
  apply orb_false_elim in Hvalid as [_ Herrs]. apply negb_false_iff in Herrs.
  destruct (errors (sherrorConfig (this s))) as [errs0 |] eqn:Herrs0; [clear Herrs | done].
  rewrite bind_run in Hres. unfold getGitRemoteUrl at 1 in Hres. cbv iota beta in Hres.
  rewrite bind_run in Hres. unfold lift at 1 in Hres.
  destruct (parseGitRemote (trim (git_stdout (world s)))) as [e | [owner repo]].
  { subst res. pose proof (Hstop (world s) [] e) as Hnow.
    rewrite after_nothing in Hnow. by apply Hnow. }
  rewrite bind_run in Hres. unfold requestRepositoryInfo in Hres.
  rewrite request_after in Hres.
  set (name := default EmptyString (category_name (sherrorConfig (this s)))) in Hres.
  destruct (fetch (RepoInfo owner repo) (world s)) as [w1 fr1].
  simpl fst in Hres; simpl snd in Hres.
  destruct (answer fr1) as [e | [repository |]].
  1, 3: by subst res; apply Hstop; repeat constructor.
  destruct (List.find (fun cat => String.eqb (category_node_name cat) name)
              (discussionCategories repository)) as [category |].
  2:{ rewrite bind_run, emit_after in Hres. unfold throw in Hres. subst res.
      by apply Hstop; repeat constructor. }
  rewrite bind_run, emit_after in Hres. rewrite bind_run in Hres.
  change (default [] (Some errs0)) with errs0 in Hres.
  match type of Hres with
  | context [after s w1 _ ?events] => set (pre := events) in Hres
  end.
  assert (Hpre_wb : Forall (fun ev => is_writeback ev = false) pre) by (by repeat constructor).
  assert (Hpre_up : Forall (fun ev => is_update ev = false) pre) by (by repeat constructor).
  assert (Hpre_created : created_urls pre = []) by reflexivity.
  destruct (sync_loop_run owner repo (repository_id repository) (category_id category)
              (length errs0) 0 false (after s w1 (sherrorConfig (this s)) pre) errs0)
    as (w3 & evs3 & cfg3 & r3 & Hloop & Hreq3 & Hfollow3 & Hok); [done | lia |].
  rewrite Hloop, after_after in Hres. clear Hloop.
  assert (Hbefore_wb : Forall (fun ev => is_writeback ev = false) (pre ++ evs3))
    by (apply Forall_app; split; [done | by apply requests_not_writeback]).
  assert (Hbefore_follow : updates_follow_a_difference (pre ++ evs3))
    by (apply follow_app; [by apply follow_no_update | done]).
  destruct r3 as [e | updated'].
  { subst res. exists (pre ++ evs3), []. rewrite app_nil_r. split; [done |].
    split; [done |]. split; [done |]. left. eauto. }
  destruct (Hok updated' eq_refl) as (-> & -> & Hcount).
  rewrite config_after, drop_0 in *. rewrite take_0, app_nil_l in Hres.
  destruct (created_urls evs3) as [| url urls] eqn:Hcreated.
  - rewrite bool_decide_eq_true_2 in Hres by done.
    change (false || negb true) with false in Hres. cbv iota in Hres.
    subst res. exists (pre ++ evs3), []. rewrite app_nil_r. split; [done |].
    split; [done |]. split; [done |]. left. split; [done |]. right.
    by rewrite created_urls_app, Hpre_created, Hcreated.
  - rewrite bool_decide_eq_false_2 in Hres by done.
    change (false || negb false) with true in Hres. cbv iota in Hres.
    set (cfg3 := mkConfig (category_name (sherrorConfig (this s)))
                   (Some (attach errs0 (url :: urls))) (printer (sherrorConfig (this s))))
      in Hres.
    destruct (writeback_run (after s w3 cfg3 (pre ++ evs3)))
      as (wb_evs & Htrace & Hquiet & Hcfg & _).
    subst res.
    exists (pre ++ evs3), (Writeback (Some (attach errs0 (url :: urls))) :: wb_evs).
    rewrite Htrace, Hcfg, trace_after, config_after, <- app_assoc.
    split; [done |]. split; [done |]. split; [done |]. right.
    exists errs0, wb_evs. rewrite created_urls_app, Hpre_created, Hcreated, app_nil_l.
    by repeat split.
Qed.

Lemma quiet_no_update (evs : list Event) :
  Forall (fun ev => is_request ev = false /\ is_writeback ev = false) evs ->
  Forall (fun ev => is_update ev = false) evs.
Proof. intros Hall. eapply Forall_impl; [exact Hall |]. by intros [] [? ?]. Qed.

Lemma quiet_no_created (evs : list Event) :
  Forall (fun ev => is_request ev = false /\ is_writeback ev = false) evs ->
  created_urls evs = [].
Proof.
  induction 1 as [| ev evs [Hreq _] _ IH]; [done |].
  change (ev :: evs) with ([ev] ++ evs).
  rewrite created_urls_app, IH. by destruct ev.
Qed.

(** C1: the turn of the loop for an entry whose link resolves to a
    discussion with the same title and body sends the fetch and nothing
    else, and leaves the configuration and the flag as they were; in every
    run of [sync], an update mutation comes right after a fetch whose title
    or body differs from the one sent; and a run in which no discussion is
    created does not invoke the write-back. *)
Theorem sync_skips_identical_discussion :
  (forall (owner repo repoId categoryId : string) (index : nat) (err : SherrorError)
          (updated : bool) (s : State World) (link : string) (num : number)
          (disc : Discussion) (w' : World),
      post_title err = Some (title disc) -> post_body err = Some (body disc) ->
      _discussion_link err = Some link -> truthy_string link = true ->
      parseDiscussionNumber link = inr num ->
      fetch (GetDiscussion owner repo num) (world s) = (w', BodyData (Some (Some disc))) ->
      entry owner repo repoId categoryId index err updated s
      = (after s w' (sherrorConfig (this s))
           [Request (GetDiscussion owner repo num) (inr (Some (Some disc)))],
         inr updated))
  /\ (forall s : State World,
        exists evs : list Event,
          trace (sync World fetch git_stdout writer s).1 = trace s ++ evs
          /\ updates_follow_a_difference evs
          /\ (created_urls evs = [] -> count is_writeback evs = 0%nat)).
Proof using Type.
  split.
  - intros owner repo repoId categoryId index err updated s link num disc w'
      Htitle Hbody Hlink Htruthy Hnum Hfetch.
    unfold sync_entry. rewrite Htitle, Hbody, Hlink.
    change (truthy (Some link)) with (truthy_string link). rewrite Htruthy.
    rewrite bind_run. unfold lift at 1. change (default EmptyString (Some link)) with link.
    rewrite Hnum. rewrite bind_run, request_after, Hfetch.
    simpl fst; simpl snd. unfold answer.
    by rewrite !String.eqb_refl.
  - intros s.
    destruct (sync_shape s) as (before & post & Htrace & Hwb & Hfollow & Hpost).
    exists (before ++ post). split; [exact Htrace |].
    destruct Hpost as [[-> _] | (errs0 & wb_evs & -> & Hquiet & _ & Hsome & _)].
    + rewrite app_nil_r. split; [done |]. intros _. by apply count_none.
    + split.
      * apply follow_app; [done |]. apply follow_no_update.
        constructor; [done | by apply quiet_no_update].
      * rewrite created_urls_app. intros Hnone.
        by apply app_eq_nil in Hnone as [Hnone _].
Qed.

Lemma lookup_writeback (before wb_evs : list Event) (snapshot snapshot' : option (list SherrorError))
    (k : nat) :
  Forall (fun ev => is_writeback ev = false) before ->
  Forall (fun ev => is_request ev = false /\ is_writeback ev = false) wb_evs ->
  (before ++ Writeback snapshot :: wb_evs) !! k = Some (Writeback snapshot') ->
  k = length before /\ snapshot' = snapshot.
Proof.
  intros Hbefore Hafter Hk.
  destruct (decide (k < length before)%nat) as [Hlt | Hge].
  { rewrite lookup_app_l in Hk by done.
    apply (Forall_lookup_1 _ _ _ _ Hbefore) in Hk. discriminate Hk. }
  rewrite lookup_app_r in Hk by lia.
  destruct (k - length before)%nat as [| k'] eqn:Hdiff; simpl in Hk.
  - split; [lia | congruence].
  - apply (Forall_lookup_1 _ _ _ _ Hafter) in Hk. by destruct Hk.
Qed.

(** C2, as the code has it. In every run of [sync] the write-back is invoked
    at most once; when it is, at least one discussion was created before,
    no request follows it, and it finds the in-memory entries with the URL of
    every discussion created attached, in order, to the entries that had no
    link. A run that completes invokes it exactly once if a discussion was
    created, and not at all otherwise. *)
Theorem sync_writes_back_once (s : State World) :
  exists evs : list Event,
    trace (sync World fetch git_stdout writer s).1 = trace s ++ evs
    /\ (count is_writeback evs <= 1)%nat
    /\ (forall (k : nat) (snapshot : option (list SherrorError)),
          evs !! k = Some (Writeback snapshot) ->
          created_urls (take k evs) <> []
          /\ Forall (fun ev => is_request ev = false) (drop (S k) evs)
          /\ exists errs0 : list SherrorError,
               errors (sherrorConfig (this s)) = Some errs0
               /\ length (created_urls (take k evs)) = count lacks_link errs0
               /\ snapshot = Some (attach errs0 (created_urls (take k evs)))
               /\ errors (sherrorConfig (this (sync World fetch git_stdout writer s).1)) = snapshot)
    /\ ((sync World fetch git_stdout writer s).2 = inr tt ->
        count is_writeback evs
        = if bool_decide (created_urls evs = []) then 0%nat else 1%nat).
Proof using Type.
  destruct (sync_shape s) as (before & post & Htrace & Hwb & Hfollow & Hpost).
  exists (before ++ post). split; [exact Htrace |].
  destruct Hpost as [[-> Hend]
                    | (errs0 & wb_evs & -> & Hquiet & Herrs0 & Hsome & Hcount & Hfinal)].
  - rewrite app_nil_r. rewrite (count_none _ _ Hwb). split; [lia |]. split.
    + intros k snapshot Hk. apply (Forall_lookup_1 _ _ _ _ Hwb) in Hk. discriminate Hk.
    + intros Hok. destruct Hend as [[e He] | Hnone]; [congruence |].
      by rewrite bool_decide_eq_true_2.
  - assert (Hcount_wb : count is_writeback (before ++ Writeback
                          (Some (attach errs0 (created_urls before))) :: wb_evs) = 1%nat).
    { rewrite count_app, (count_none _ _ Hwb). unfold count. simpl.
      fold (count is_writeback wb_evs). rewrite count_none; [done |].
      eapply Forall_impl; [exact Hquiet |]. by intros ev [_ ?]. }
    rewrite Hcount_wb. split; [lia |]. split.
    + intros k snapshot Hk.
      destruct (lookup_writeback _ _ _ _ _ Hwb Hquiet Hk) as [-> ->].
      rewrite take_app_length, cons_middle, app_assoc.
      rewrite drop_app_length' by (rewrite length_app; simpl; lia).
      split; [done |]. split.
      { eapply Forall_impl; [exact Hquiet |]. by intros ev [? _]. }
      exists errs0. by repeat split.
    + intros _. rewrite created_urls_app, bool_decide_eq_false_2; [done |].
      intros Hnone. by apply app_eq_nil in Hnone as [Hnone _].
Qed.

(** *** A whole run of [clear] *)

Lemma emit_run (ev : Event) (s : State World) :
  emit World ev s = (after s (world s) (sherrorConfig (this s)) [ev], inr tt).
Proof. unfold emit, after. by rewrite client_eta. Qed.

Lemma set_config_after (cfg' : SherrorConfig) (s : State World) (w : World)
    (cfg : SherrorConfig) (evs : list Event) :
  set_config World cfg' (after s w cfg evs) = (after s w cfg' evs, inr tt).
Proof. reflexivity. Qed.

Lemma deleted_ids_app (evs1 evs2 : list Event) :
  deleted_ids (evs1 ++ evs2) = deleted_ids evs1 ++ deleted_ids evs2.
Proof. unfold deleted_ids. by rewrite omap_app. Qed.

Lemma fetched_discussions_app (evs1 evs2 : list Event) :
  fetched_discussions (evs1 ++ evs2) = fetched_discussions evs1 ++ fetched_discussions evs2.
Proof. unfold fetched_discussions. by rewrite omap_app. Qed.

(** The deletion loop: it deletes every discussion in order, or it stops at
    the first deletion that fails. *)
Lemma deletions_run (nodes : list DiscussionNode) :
  forall s : State World,
    exists (w : World) (evs : list Event) (r : result unit),
      deletions nodes s = (after s w (sherrorConfig (this s)) evs, r)
      /\ Forall (fun ev => is_writeback ev = false) evs
      /\ fetched_discussions evs = []
      /\ match r with
         | inr _ => deleted_ids evs = node_ids nodes
                    /\ count is_failed_delete evs = 0%nat
         | inl _ => (0 < count is_failed_delete evs)%nat
         end.
Proof using Type.
  induction nodes as [| discussion rest IH]; intros s.
  { exists (world s), [], (inr tt). rewrite after_nothing. by repeat split. }
  unfold delete_discussions; fold deletions.
  rewrite bind_run, emit_run. rewrite bind_run. unfold try_catch.
  rewrite bind_run, request_after, after_after.
  set (q := DeleteDiscussion (node_id discussion)).
  set (log := Log ("Deleting discussion #" +:+ string_of_Z (node_number discussion)
                   +:+ ": " +:+ node_title discussion)).
  simpl world. simpl sherrorConfig.
  destruct (fetch q (world s)) as [w1 fr1]. simpl fst; simpl snd.
  destruct (answer fr1) as [e | []].
  - rewrite bind_run, emit_after. unfold throw.
    eexists w1, _, (inl e). split; [reflexivity |].
    split; [by repeat constructor |]. split; [reflexivity |].
    unfold count. simpl. lia.
  - unfold mret at 1, M_ret at 1. cbv iota beta.
    match goal with
    | |- context [deletions rest (after s w1 _ ?events)] => set (evs1 := events)
    end.
    destruct (IH (after s w1 (sherrorConfig (this s)) evs1))
      as (w2 & evs2 & r2 & -> & Hwb2 & Hfetched2 & Hr2).
    rewrite after_after, config_after.
    exists w2, (evs1 ++ evs2), r2.
    split; [done |]. split; [apply Forall_app; split; [by repeat constructor | done] |].
    split; [by rewrite fetched_discussions_app, Hfetched2 |].
    destruct r2 as [e | []].
    + rewrite count_app. lia.
    + destruct Hr2 as [Hids Hnone]. rewrite deleted_ids_app, count_app, Hids, Hnone.
      by split.
Qed.

(** C9, as the code has it. In a run of [clear] that fetched a non-empty
    list of discussions and in which no deletion failed, the delete
    mutations sent are those of the fetched discussions, in order; every
    entry that had a non-empty link has lost it; the write-back is invoked
    once if some entry had such a link and not at all otherwise; and when it
    is invoked, the deletions are done and the links are removed. In a run
    that fetched an empty list, nothing is deleted, the configuration is
    left as it was and the write-back is not invoked. *)
Theorem clear_deletes_then_strips (s : State World) :
  exists evs : list Event,
    trace (clear World fetch git_stdout writer s).1 = trace s ++ evs
    /\ (forall nodes : list DiscussionNode,
          fetched_discussions evs = [nodes] -> nodes <> [] ->
          count is_failed_delete evs = 0%nat ->
          deleted_ids evs = node_ids nodes
          /\ errors (sherrorConfig (this (clear World fetch git_stdout writer s).1))
             = strip_links (errors (sherrorConfig (this s)))
          /\ count is_writeback evs
             = (if has_link (errors (sherrorConfig (this s))) then 1%nat else 0%nat)
          /\ (forall (k : nat) (snapshot : option (list SherrorError)),
                evs !! k = Some (Writeback snapshot) ->
                deleted_ids (take k evs) = node_ids nodes
                /\ snapshot = strip_links (errors (sherrorConfig (this s)))))
    /\ (fetched_discussions evs = [[]] ->
        deleted_ids evs = []
        /\ sherrorConfig (this (clear World fetch git_stdout writer s).1) = sherrorConfig (this s)
        /\ count is_writeback evs = 0%nat).
Proof using Type.
  set (res := clear World fetch git_stdout writer s).
  assert (Hres : res = clear World fetch git_stdout writer s) by reflexivity.
  clearbody res. unfold clear in Hres.
  assert (Hstop : forall (w : World) (evs : list Event) (r : result unit),
             res = (after s w (sherrorConfig (this s)) evs, r) ->
             fetched_discussions evs = [] \/ fetched_discussions evs = [[]]
             \/ (0 < count is_failed_delete evs)%nat ->
             (fetched_discussions evs = [[]] ->
              deleted_ids evs = [] /\ count is_writeback evs = 0%nat) ->
             exists evs : list Event,
               trace res.1 = trace s ++ evs
               /\ (forall nodes : list DiscussionNode,
                     fetched_discussions evs = [nodes] -> nodes <> [] ->
                     count is_failed_delete evs = 0%nat ->
                     deleted_ids evs = node_ids nodes
                     /\ errors (sherrorConfig (this res.1))
                        = strip_links (errors (sherrorConfig (this s)))
                     /\ count is_writeback evs
                        = (if has_link (errors (sherrorConfig (this s)))
                           then 1%nat else 0%nat)
                     /\ (forall (k : nat) (snapshot : option (list SherrorError)),
                           evs !! k = Some (Writeback snapshot) ->
                           deleted_ids (take k evs) = node_ids nodes
                           /\ snapshot = strip_links (errors (sherrorConfig (this s)))))
               /\ (fetched_discussions evs = [[]] ->
                   deleted_ids evs = []
                   /\ sherrorConfig (this res.1) = sherrorConfig (this s)
                   /\ count is_writeback evs = 0%nat)).
  { intros w evs r -> Hnot Hempty. exists evs. split; [done |]. split.
    - intros nodes Hfetched Hnodes Hfailed. exfalso.
      destruct Hnot as [Hnot | [Hnot | Hnot]]; [congruence | | lia].
      rewrite Hnot in Hfetched. congruence.
    - intros Hfetched. destruct (Hempty Hfetched) as [Hdeleted Hcount].
      by repeat split. }
  rewrite bind_run in Hres. unfold get_config at 1 in Hres. cbv iota beta in Hres.
  destruct (negb (truthy (category_name (sherrorConfig (this s))))).
  { apply (Hstop (world s) [] (inl (Error "Invalid config: missing category_name")));
      [by rewrite after_nothing | by left | done]. }
  rewrite bind_run in Hres. unfold getGitRemoteUrl at 1 in Hres. cbv iota beta in Hres.
  rewrite bind_run in Hres. unfold lift at 1 in Hres.
  destruct (parseGitRemote (trim (git_stdout (world s)))) as [e | [owner repo]].
  { apply (Hstop (world s) [] (inl e)); [by rewrite after_nothing | by left | done]. }
  rewrite bind_run in Hres. unfold requestRepositoryInfo in Hres.
  rewrite request_after in Hres.
  set (name := default EmptyString (category_name (sherrorConfig (this s)))) in Hres.
  destruct (fetch (RepoInfo owner repo) (world s)) as [w1 fr1].
  simpl fst in Hres; simpl snd in Hres.
  destruct (answer fr1) as [e | [repository |]].
  1, 3: by eapply Hstop; [exact Hres | left | ].
  destruct (List.find (fun cat => String.eqb (category_node_name cat) name)
              (discussionCategories repository)) as [category |].
  2:{ rewrite emit_after in Hres. by eapply Hstop; [exact Hres | left | ]. }
  rewrite bind_run, request_after, after_after in Hres.
  simpl world in Hres. simpl sherrorConfig in Hres.
  set (q := GetDiscussions owner repo (category_id category)) in Hres.
  destruct (fetch q w1) as [w2 fr2]. simpl fst in Hres; simpl snd in Hres.
  destruct (answer fr2) as [e | nodes].
  { by eapply Hstop; [exact Hres | left | ]. }
  destruct nodes as [| discussion rest].
  { rewrite emit_after in Hres. by eapply Hstop; [exact Hres | right; left | ]. }
  set (nodes := discussion :: rest) in Hres.
  rewrite bind_run, emit_after in Hres. rewrite bind_run in Hres.
  match type of Hres with
  | context [deletions nodes (after s w2 _ ?events)] => set (pre := events) in Hres
  end.
  assert (Hpre_wb : Forall (fun ev => is_writeback ev = false) pre) by (by repeat constructor).
  assert (Hpre_fetched : fetched_discussions pre = [nodes]) by reflexivity.
  assert (Hpre_deleted : deleted_ids pre = []) by reflexivity.
  assert (Hpre_failed : count is_failed_delete pre = 0%nat) by reflexivity.
  destruct (deletions_run nodes (after s w2 (sherrorConfig (this s)) pre))
    as (w3 & evs3 & r3 & Hdel & Hwb3 & Hfetched3 & Hr3).
  rewrite Hdel, after_after, config_after in Hres. clear Hdel.
  destruct r3 as [e | []].
  { eapply Hstop; [exact Hres | |].
    - right; right. rewrite count_app. lia.
    - rewrite fetched_discussions_app, Hpre_fetched, Hfetched3. discriminate. }
  destruct Hr3 as [Hids3 Hfailed3].
  rewrite bind_run, emit_after in Hres. rewrite bind_run in Hres.
  unfold get_config at 1 in Hres. cbv iota beta in Hres. rewrite config_after in Hres.
  match type of Hres with
  | context [after s w3 _ ?events] => set (before := events) in Hres
  end.
  assert (Hbefore_wb : Forall (fun ev => is_writeback ev = false) before).
  { unfold before. apply Forall_app; split; [| by repeat constructor].
    by apply Forall_app. }
  assert (Hbefore_fetched : fetched_discussions before = [nodes]).
  { unfold before. by rewrite !fetched_discussions_app, Hpre_fetched, Hfetched3. }
  assert (Hbefore_deleted : deleted_ids before = node_ids nodes).
  { unfold before. by rewrite !deleted_ids_app, Hpre_deleted, Hids3, app_nil_r. }
  unfold has_link.
  destruct (errors (sherrorConfig (this s))) as [errs |] eqn:Herrs.
  2:{ subst res. exists before.
      repeat match goal with
             | |- context [(?m (after s w3 ?c before)).1] =>
                 change ((m (after s w3 c before)).1) with (after s w3 c before)
             end.
      rewrite trace_after, config_after, Herrs.
      split; [done |]. split; [| by rewrite Hbefore_fetched].
      intros nodes' Hfetched' _ _.
      rewrite Hbefore_fetched in Hfetched'. injection Hfetched' as <-.
      split; [done |]. split; [done |]. split; [by apply count_none |].
      intros k snapshot Hk. apply (Forall_lookup_1 _ _ _ _ Hbefore_wb) in Hk.
      discriminate Hk. }
  rewrite bind_run, set_config_after in Hres.
  change (default [] (Some errs)) with errs.
  set (cfg' := mkConfig (category_name (sherrorConfig (this s)))
                 (Some (strip_link <$> errs)) (printer (sherrorConfig (this s)))) in Hres.
  destruct (existsb (fun error => truthy (_discussion_link error)) errs).
  - destruct (writeback_run (after s w3 cfg' before)) as (wb_evs & Htrace & Hquiet & Hcfg & _).
    subst res. exists (before ++ Writeback (Some (strip_link <$> errs)) :: wb_evs).
    rewrite Htrace, Hcfg, trace_after, config_after.
    split; [by rewrite <- app_assoc |].
    assert (Hafter_fetched : fetched_discussions
                               (Writeback (Some (strip_link <$> errs)) :: wb_evs) = []).
    { clear -Hquiet. induction Hquiet as [| ev evs [Hreq _] _ IH]; [done |].
      change (Writeback (Some (strip_link <$> errs)) :: ev :: evs)
        with ([Writeback (Some (strip_link <$> errs)); ev] ++ evs).
      rewrite fetched_discussions_app.
      change (Writeback (Some (strip_link <$> errs)) :: evs)
        with ([Writeback (Some (strip_link <$> errs))] ++ evs) in IH.
      rewrite fetched_discussions_app in IH. simpl app at 1 in IH.
      rewrite IH. by destruct ev. }
    assert (Hafter_deleted : deleted_ids
                               (Writeback (Some (strip_link <$> errs)) :: wb_evs) = []).
    { clear -Hquiet. induction Hquiet as [| ev evs [Hreq _] _ IH]; [done |].
      change (Writeback (Some (strip_link <$> errs)) :: ev :: evs)
        with ([Writeback (Some (strip_link <$> errs)); ev] ++ evs).
      rewrite deleted_ids_app.
      change (Writeback (Some (strip_link <$> errs)) :: evs)
        with ([Writeback (Some (strip_link <$> errs))] ++ evs) in IH.
      rewrite deleted_ids_app in IH. simpl app at 1 in IH.
      rewrite IH. by destruct ev. }
    split; [| by rewrite fetched_discussions_app, Hbefore_fetched, Hafter_fetched].
    intros nodes' Hfetched' _ _.
    rewrite fetched_discussions_app, Hbefore_fetched, Hafter_fetched in Hfetched'.
    injection Hfetched' as <-.
    split; [by rewrite deleted_ids_app, Hbefore_deleted, Hafter_deleted, app_nil_r |].
    split; [done |]. split.
    + rewrite count_app, (count_none _ _ Hbefore_wb). unfold count. simpl.
      fold (count is_writeback wb_evs). rewrite count_none; [done |].
      eapply Forall_impl; [exact Hquiet |]. by intros ev [_ ?].
    + intros k snapshot Hk.
      destruct (lookup_writeback _ _ _ _ _ Hbefore_wb Hquiet Hk) as [-> ->].
      by rewrite take_app_length.
  - subst res. exists before.
    repeat match goal with
           | |- context [(?m (after s w3 ?c before)).1] =>
               change ((m (after s w3 c before)).1) with (after s w3 c before)
           end.
    rewrite trace_after, config_after.
    split; [done |]. split; [| by rewrite Hbefore_fetched].
    intros nodes' Hfetched' _ _.
    rewrite Hbefore_fetched in Hfetched'. injection Hfetched' as <-.
    split; [done |]. split; [done |]. split; [by apply count_none |].
    intros k snapshot Hk. apply (Forall_lookup_1 _ _ _ _ Hbefore_wb) in Hk.
    discriminate Hk.
Qed.

End OperationsFacts.

(** ** The artifact *)

Section ElementFacts.

Variable writer : Writer.

Lemma replace_element_length (errs : list SherrorError) (elements : list string) (k : nat) :
  length (replace_element writer errs elements k) = length elements.
Proof.
  unfold replace_element. destruct (errs !! k); [by rewrite length_insert | done].
Qed.

Lemma replace_fold (errs : list SherrorError) (m k : nat) (elements : list string) :
  let result := foldl (replace_element writer errs) elements (seq k m) in
  length result = length elements
  /\ (forall i : nat,
        (i < k)%nat \/ (k + m <= i)%nat \/ errs !! i = None ->
        result !! i = elements !! i)
  /\ (forall (i : nat) (error : SherrorError),
        (k <= i < k + m)%nat -> (i < length elements)%nat ->
        errs !! i = Some error ->
        exists text : string, result !! i = Some text /\ written writer error text).
Proof.
  revert k elements. induction m as [| m IH]; intros k elements; cbv zeta.
  { simpl. split; [done |]. split; [done |]. intros i error Hi. lia. }
  change (seq k (S m)) with (k :: seq (S k) m).
  change (foldl (replace_element writer errs) elements (k :: seq (S k) m))
    with (foldl (replace_element writer errs) (replace_element writer errs elements k)
            (seq (S k) m)).
  specialize (IH (S k) (replace_element writer errs elements k)).
  cbv zeta in IH. destruct IH as (Hlen & Hout & Hin).
  rewrite replace_element_length in Hlen, Hin.
  assert (Hother : forall i : nat,
             i <> k \/ errs !! i = None ->
             replace_element writer errs elements k !! i = elements !! i).
  { intros i Hi. unfold replace_element.
    destruct (errs !! k) as [error |] eqn:Hk; [| done].
    destruct (decide (i = k)) as [-> | Hne].
    - destruct Hi as [Hi | Hi]; [done | congruence].
    - by rewrite list_lookup_insert_ne. }
  split; [exact Hlen |]. split.
  - intros i Hi. rewrite Hout by (destruct Hi as [|[|]]; [left; lia | right; left; lia | by right; right]).
    apply Hother. destruct Hi as [Hi | [Hi | Hi]]; [left; lia | left; lia | by right].
  - intros i error Hi Hlt Herr.
    destruct (decide (i = k)) as [-> | Hne].
    + rewrite Hout by (left; lia).
      unfold replace_element. rewrite Herr.
      rewrite list_lookup_insert_eq by exact Hlt.
      eexists. split; [reflexivity |]. left. by eexists _, _.
    + apply Hin; [lia | exact Hlt | exact Herr].
Qed.

Lemma replace_elements_spec (errs : list SherrorError) (elements : list string) :
  length (replace_elements writer errs elements) = length elements
  /\ (forall i : nat,
        errs !! i = None -> replace_elements writer errs elements !! i = elements !! i)
  /\ (forall (i : nat) (error : SherrorError),
        (i < length elements)%nat -> errs !! i = Some error ->
        exists text : string,
          replace_elements writer errs elements !! i = Some text
          /\ written writer error text).
Proof.
  unfold replace_elements.
  destruct (replace_fold errs (length elements) 0 elements) as (Hlen & Hout & Hin).
  split; [exact Hlen |]. split.
  - intros i Hi. apply Hout. by right; right.
  - intros i error Hlt Herr. apply Hin; [lia | exact Hlt | exact Herr].
Qed.

Lemma add_fold (news : list SherrorError) (elements : list string) :
  let result := foldl (fun elements error =>
                         elements ++ [addElement writer elements (objText error)])
                  elements news in
  length result = (length elements + length news)%nat
  /\ (forall i : nat, (i < length elements)%nat -> result !! i = elements !! i)
  /\ (forall (j : nat) (error : SherrorError),
        news !! j = Some error ->
        exists text : string,
          result !! (length elements + j)%nat = Some text /\ written writer error text).
Proof.
  revert elements. induction news as [| e news IH]; intros elements; cbv zeta.
  { simpl. split; [lia |]. split; [done |]. intros j error Hj. done. }
  simpl foldl.
  specialize (IH (elements ++ [addElement writer elements (objText e)])).
  cbv zeta in IH. destruct IH as (Hlen & Hold & Hnew).
  rewrite length_app in Hlen, Hold, Hnew. simpl length in Hlen, Hold, Hnew.
  split; [simpl; lia |]. split.
  - intros i Hi. rewrite Hold by lia. by rewrite lookup_app_l.
  - intros [| j] error Hj.
    + injection Hj as <-. rewrite Nat.add_0_r, Hold by lia.
      rewrite lookup_app_r by lia. rewrite Nat.sub_diag. simpl.
      eexists. split; [reflexivity |]. right. by eexists.
    + destruct (Hnew j error Hj) as (text & Htext & Hwritten).
      exists text. split; [| exact Hwritten].
      rewrite <- Htext. f_equal. lia.
Qed.

(** The elements of the array after the rewriting: the element at the
    index of an entry is what the writer has made of its literal, and the
    elements beyond the entries are as they were. *)
Lemma rewrite_elements_spec (errs : list SherrorError) (elements : list string) :
  length (rewrite_elements writer errs elements) = (length elements `max` length errs)%nat
  /\ (forall i : nat,
        errs !! i = None -> rewrite_elements writer errs elements !! i = elements !! i)
  /\ (forall (i : nat) (error : SherrorError),
        errs !! i = Some error ->
        exists text : string,
          rewrite_elements writer errs elements !! i = Some text
          /\ written writer error text).
Proof.
  unfold rewrite_elements, add_elements.
  destruct (replace_elements_spec errs elements) as (Hlen & Hout & Hin).
  rewrite Hlen.
  destruct (Nat.ltb_spec (length elements) (length errs)) as [Hlt | Hge].
  - destruct (add_fold (drop (length elements) errs) (replace_elements writer errs elements))
      as (Hlen' & Hold & Hnew).
    cbv zeta in Hlen', Hold, Hnew. rewrite Hlen in Hlen', Hold, Hnew.
    rewrite length_drop in Hlen'.
    split; [lia |]. split.
    + intros i Hi. apply lookup_ge_None in Hi as Hge.
      rewrite (proj2 (lookup_ge_None elements i)) by lia.
      apply lookup_ge_None. lia.
    + intros i error Herr.
      destruct (decide (i < length elements)%nat) as [Hi | Hi].
      * rewrite Hold by exact Hi. by apply Hin.
      * destruct (Hnew (i - length elements)%nat error) as (text & Htext & Hwritten).
        { rewrite lookup_drop. rewrite <- Herr. f_equal. lia. }
        exists text. split; [| exact Hwritten]. rewrite <- Htext. f_equal. lia.
  - split; [lia |]. split; [exact Hout |].
    intros i error Herr. apply Hin; [| exact Herr].
    apply lookup_lt_Some in Herr. lia.
Qed.

Lemma written_unindent (error : SherrorError) (text : string) :
  indents_only writer ->
  written writer error text -> unindent text = unindent (objText error).
Proof.
  intros Hwriter [(elements & index & ->) | (elements & ->)].
  - by destruct (Hwriter elements error) as [H _].
  - by destruct (Hwriter elements error) as [_ H].
Qed.

(** A second rewriting with the same entries changes at most the
    indentation of the elements. *)
Lemma rewrite_elements_again (errs : list SherrorError) (elements : list string) :
  indents_only writer ->
  map unindent (rewrite_elements writer errs (rewrite_elements writer errs elements))
  = map unindent (rewrite_elements writer errs elements).
Proof.
  intros Hwriter. apply list_eq. intros i.
  change (map unindent) with (fmap (M := list) unindent). rewrite !list_lookup_fmap.
  destruct (rewrite_elements_spec errs (rewrite_elements writer errs elements))
    as (_ & Hout2 & Hin2).
  destruct (rewrite_elements_spec errs elements) as (_ & _ & Hin1).
  destruct (errs !! i) as [error |] eqn:Herr.
  - destruct (Hin2 i error Herr) as (text2 & -> & Hw2).
    destruct (Hin1 i error Herr) as (text1 & -> & Hw1).
    simpl. by rewrite (written_unindent _ _ Hwriter Hw1), (written_unindent _ _ Hwriter Hw2).
  - by rewrite Hout2.
Qed.

Lemma rewrite_properties_again (errs : list SherrorError) (props props' : list Property) :
  rewrite_properties writer errs props = inr props' ->
  exists props'' : list Property,
    rewrite_properties writer errs props' = inr props''
    /\ (indents_only writer -> unindent_errors props'' = unindent_errors props').
Proof.
  revert props'. induction props as [| p props IH]; intros props'; simpl; [done |].
  destruct (is_errors_property p) eqn:Hp.
  - destruct p as [name [| elements | |] | name text]; try done.
    intros [= <-]. simpl. unfold is_errors_property in *. simpl in *. rewrite Hp.
    eexists. split; [reflexivity |]. intros Hwriter.
    simpl. unfold is_errors_property. simpl. rewrite Hp.
    by rewrite rewrite_elements_again.
  - destruct (rewrite_properties writer errs props) as [e | rest'] eqn:Hrest; [done |].
    intros [= <-]. simpl. rewrite Hp.
    destruct (IH rest' eq_refl) as (rest'' & -> & Heq).
    eexists. split; [reflexivity |]. intros Hwriter. simpl. by rewrite Hp, Heq.
Qed.

Lemma rewrite_initializer_again (errs : list SherrorError) (init init' : Expression) :
  rewrite_initializer writer errs init = inr init' ->
  exists init'' : Expression,
    rewrite_initializer writer errs init' = inr init''
    /\ (indents_only writer -> unindent_initializer init'' = unindent_initializer init').
Proof.
  unfold rewrite_initializer.
  destruct init as [props | | [props | | |] type_text |]; try done.
  - destruct (rewrite_properties writer errs props) as [e | props'] eqn:Hprops; [done |].
    intros [= <-]. destruct (rewrite_properties_again _ _ _ Hprops) as (props'' & -> & Heq).
    eexists. split; [reflexivity |]. intros Hwriter. simpl. by rewrite Heq.
  - destruct (rewrite_properties writer errs props) as [e | props'] eqn:Hprops; [done |].
    intros [= <-]. destruct (rewrite_properties_again _ _ _ Hprops) as (props'' & -> & Heq).
    eexists. split; [reflexivity |]. intros Hwriter. simpl. by rewrite Heq.
Qed.

Lemma rewrite_declaration_again (errs : list SherrorError)
    (decl : option Declaration) (decl' : Declaration) :
  rewrite_declaration writer errs decl = inr decl' ->
  exists decl'' : Declaration,
    rewrite_declaration writer errs (Some decl') = inr decl''
    /\ (indents_only writer -> unindent_declaration decl'' = unindent_declaration decl').
Proof.
  unfold rewrite_declaration.
  destruct decl as [[name [init |] | text] |]; try done.
  destruct (rewrite_initializer writer errs init) as [e | init'] eqn:Hinit; [done |].
  intros [= <-]. destruct (rewrite_initializer_again _ _ _ Hinit) as (init'' & -> & Heq).
  eexists. split; [reflexivity |]. intros Hwriter. simpl. by rewrite Heq.
Qed.

End ElementFacts.

Section ElementsOfTheArtifact.

Variable writer : Writer.

Lemma rewrite_properties_elements (errs : list SherrorError) (props props' : list Property) :
  rewrite_properties writer errs props = inr props' ->
  exists elements : list string,
    Reader.property_elements props = Some elements
    /\ Reader.property_elements props' = Some (rewrite_elements writer errs elements).
Proof.
  revert props'. induction props as [| p props IH]; intros props'; simpl; [done |].
  destruct (is_errors_property p) eqn:Hp.
  - destruct p as [name [| elements | |] | name text]; try done.
    intros [= <-]. exists elements. unfold Reader.property_elements. simpl.
    unfold is_errors_property in *. simpl in *. by rewrite Hp.
  - destruct (rewrite_properties writer errs props) as [e | rest'] eqn:Hrest; [done |].
    intros [= <-]. destruct (IH rest' eq_refl) as (elements & Hbefore & Hafter).
    exists elements. unfold Reader.property_elements in *. simpl. by rewrite Hp.
Qed.

Lemma rewrite_declaration_elements (errs : list SherrorError)
    (decl : option Declaration) (decl' : Declaration) :
  rewrite_declaration writer errs decl = inr decl' ->
  exists (name : string) (init init' : Expression) (elements : list string),
    decl = Some (VariableDeclaration name (Some init))
    /\ decl' = VariableDeclaration name (Some init')
    /\ Reader.initializer_elements init = Some elements
    /\ Reader.initializer_elements init' = Some (rewrite_elements writer errs elements).
Proof.
  unfold rewrite_declaration.
  destruct decl as [[name [init |] | text] |]; try done.
  unfold rewrite_initializer.
  destruct init as [props | | [props | | |] type_text |]; try done.
  - destruct (rewrite_properties writer errs props) as [e | props'] eqn:Hprops; [done |].
    intros [= <-].
    destruct (rewrite_properties_elements _ _ _ Hprops) as (elements & Hbefore & Hafter).
    by eexists name, _, _, elements.
  - destruct (rewrite_properties writer errs props) as [e | props'] eqn:Hprops; [done |].
    intros [= <-].
    destruct (rewrite_properties_elements _ _ _ Hprops) as (elements & Hbefore & Hafter).
    by eexists name, _, _, elements.
Qed.

(** A rewriting that succeeds has found the [errors] array and has
    rewritten its elements. *)
Lemma rewrite_source_file_elements (errs : list SherrorError) (sf sf' : SourceFile) :
  rewrite_source_file writer errs sf = inr sf' ->
  exists elements : list string,
    Reader.config_elements sf = Some elements
    /\ Reader.config_elements sf' = Some (rewrite_elements writer errs elements).
Proof.
  unfold rewrite_source_file, Reader.config_elements.
  destruct (if has_length (exports_get sf "default") then exports_get sf "default"
            else exports_get sf "config") as [[| position decls] |] eqn:Hdecls; try done.
  destruct (rewrite_declaration writer errs (statements sf !! position)) as [e | decl] eqn:Hdecl;
    [done |].
  intros [= <-].
  destruct (rewrite_declaration_elements _ _ _ Hdecl)
    as (name & init & init' & elements & Hd & -> & Hbefore & Hafter).
  exists elements. rewrite Hd. split; [exact Hbefore |].
  change (exports_get {| statements := ?l; exported := exported sf |})
    with (exports_get sf).
  rewrite Hdecls. simpl statements.
  rewrite list_lookup_insert_eq by (by eapply lookup_lt_Some). exact Hafter.
Qed.

End ElementsOfTheArtifact.

Section WritebackFacts.

Variable World : Type.
Variable writer : Writer.

Lemma rewrite_declaration_defined (errs : list SherrorError)
    (decl : option Declaration) (decl' : Declaration) :
  rewrite_declaration writer errs decl = inr decl' -> exists d, decl = Some d.
Proof. destruct decl; [eauto | done]. Qed.

Lemma rewrite_source_file_inv (errs : list SherrorError) (sf sf' : SourceFile) :
  rewrite_source_file writer errs sf = inr sf' ->
  exists (position : nat) (decls : list nat) (decl : Declaration),
    (if has_length (exports_get sf "default") then exports_get sf "default"
     else exports_get sf "config") = Some (position :: decls)
    /\ rewrite_declaration writer errs (statements sf !! position) = inr decl
    /\ sf' = {| statements := <[position := decl]> (statements sf);
                exported := exported sf |}.
Proof.
  unfold rewrite_source_file.
  destruct (if has_length (exports_get sf "default") then exports_get sf "default"
            else exports_get sf "config") as [[| position decls] |]; try done.
  destruct (rewrite_declaration writer errs (statements sf !! position)) as [e | decl] eqn:Hdecl;
    [done |].
  intros [= <-]. by exists position, decls, decl.
Qed.

(** What [writebackConfig] leaves is a function of the client and of the
    disk before. *)
Lemma writeback_outcome_run (s : State World) :
  (this (writebackConfig World writer s).1, disk (writebackConfig World writer s).1,
   (writebackConfig World writer s).2)
  = writeback_outcome writer (this s) (disk s).
Proof.
  set (res := writebackConfig World writer s).
  assert (Hres : res = writebackConfig World writer s) by reflexivity.
  clearbody res.
  unfold writebackConfig in Hres. unfold writeback_outcome, rewrite_source_file.
  rewrite bind_run in Hres. unfold get_config at 1 in Hres. cbv iota beta zeta in Hres.
  rewrite bind_run in Hres. unfold emit at 1 in Hres. cbv iota beta in Hres.
  cbv zeta.
  destruct (negb (truthy (category_name (sherrorConfig (this s))))
            || negb (defined (errors (sherrorConfig (this s))))).
  { by subst res. }
  rewrite bind_run in Hres. unfold addSourceFileAtPath at 1 in Hres.
  simpl project in Hres. simpl disk in Hres.
  assert (Hclient : forall sf, project (this s) = Some sf ->
             mkClient (ghToken (this s)) (sherrorConfig (this s)) (Some sf) = this s)
    by (intros sf <-; apply client_eta).
  destruct (project (this s)) as [sf |] eqn:Hproject.
  - specialize (Hclient sf eq_refl).
    rewrite bind_run in Hres.
    destruct (has_length (exports_get sf "default")) eqn:Hdefault.
    + unfold mret at 1, M_ret at 1 in Hres. cbv iota beta in Hres.
      destruct (exports_get sf "default") as [[| position decls] |]; try discriminate Hdefault.
      rewrite bind_run in Hres. unfold lift at 1 in Hres.
      destruct (rewrite_declaration _ _ _) as [e | decl]; subst res; simpl;
        by rewrite ?Hclient.
    + rewrite bind_run in Hres. unfold emit at 1 in Hres. cbv iota beta in Hres.
      unfold mret at 1, M_ret at 1 in Hres. cbv iota beta in Hres.
      destruct (exports_get sf "config") as [[| position decls] |];
        [subst res; simpl; rewrite Hclient; reflexivity | |
         subst res; simpl; rewrite Hclient; reflexivity].
      rewrite bind_run in Hres. unfold lift at 1 in Hres.
      destruct (rewrite_declaration _ _ _) as [e | decl]; subst res; simpl;
        by rewrite ?Hclient.
  - clear Hclient. destruct (disk s) as [sf |] eqn:Hdisk; [| by subst res].
    simpl fst in Hres. rewrite bind_run in Hres.
    destruct (has_length (exports_get sf "default")) eqn:Hdefault.
    + unfold mret at 1, M_ret at 1 in Hres. cbv iota beta in Hres.
      destruct (exports_get sf "default") as [[| position decls] |]; try discriminate Hdefault.
      rewrite bind_run in Hres. unfold lift at 1 in Hres.
      destruct (rewrite_declaration _ _ _) as [e | decl]; by subst res.
    + rewrite bind_run in Hres. unfold emit at 1 in Hres. cbv iota beta in Hres.
      unfold mret at 1, M_ret at 1 in Hres. cbv iota beta in Hres.
      destruct (exports_get sf "config") as [[| position decls] |];
        [by subst res | | by subst res].
      rewrite bind_run in Hres. unfold lift at 1 in Hres.
      destruct (rewrite_declaration _ _ _) as [e | decl]; by subst res.
Qed.

Lemma alter_insert_eq {A : Type} (f : A -> A) (l : list A) (i : nat) (x : A) :
  alter f i (<[i := x]> l) = <[i := f x]> l.
Proof.
  apply list_eq. intros j. destruct (decide (j = i)) as [-> | Hne].
  - rewrite list_lookup_alter_eq.
    destruct (decide (i < length l)%nat) as [Hi | Hi].
    + by rewrite !list_lookup_insert_eq.
    + rewrite !(proj2 (lookup_ge_None _ _)); [done | rewrite length_insert; lia ..].
  - rewrite list_lookup_alter_ne by done. by rewrite !list_lookup_insert_ne.
Qed.

Lemma rewrite_source_file_again (errs : list SherrorError) (sf sf' : SourceFile) :
  rewrite_source_file writer errs sf = inr sf' ->
  exists sf'' : SourceFile,
    rewrite_source_file writer errs sf' = inr sf''
    /\ (indents_only writer -> unindent_source_file sf'' = unindent_source_file sf').
Proof.
  intros (position & decls & decl & Hdecls & Hdecl & ->)%rewrite_source_file_inv.
  unfold rewrite_source_file.
  change (exports_get {| statements := <[position:=decl]> (statements sf);
                         exported := exported sf |})
    with (exports_get sf).
  rewrite Hdecls. simpl statements. simpl exported.
  destruct (rewrite_declaration_defined _ _ _ Hdecl) as [d Hd].
  rewrite list_lookup_insert_eq by (by eapply lookup_lt_Some).
  destruct (rewrite_declaration_again writer _ _ _ Hdecl) as (decl'' & -> & Heq).
  eexists. split; [reflexivity |]. intros Hwriter.
  unfold unindent_source_file.
  change (exports_get {| statements := ?l; exported := exported sf |})
    with (exports_get sf).
  rewrite Hdecls. simpl statements. simpl exported.
  by rewrite list_insert_insert_eq, !alter_insert_eq, Heq.
Qed.

(** A second write-back, from what the first has left. *)
Lemma writeback_outcome_again (c : Client) (d : option SourceFile) :
  let first := writeback_outcome writer c d in
  let second := writeback_outcome writer first.1.1 first.1.2 in
  second.2 = first.2
  /\ sherrorConfig second.1.1 = sherrorConfig first.1.1
  /\ (indents_only writer ->
      unindent_source_file <$> project second.1.1
      = unindent_source_file <$> project first.1.1
      /\ unindent_source_file <$> second.1.2 = unindent_source_file <$> first.1.2)
  /\ (forall e : Exn, first.2 = inl e -> second.1.2 = first.1.2)
  /\ (forall elements : list string,
        first.1.2 ≫= Reader.config_elements = Some elements ->
        exists elements' : list string,
          second.1.2 ≫= Reader.config_elements = Some elements'
          /\ length elements' = length elements
          /\ forall i : nat,
               default [] (errors (sherrorConfig c)) !! i = None ->
               elements' !! i = elements !! i).
Proof.
  cbv zeta.
  destruct (writeback_outcome writer c d) as [[c1 d1] r1] eqn:Hfirst. simpl.
  unfold writeback_outcome in Hfirst.
  destruct (negb (truthy (category_name (sherrorConfig c)))
            || negb (defined (errors (sherrorConfig c)))) eqn:Hvalid.
  { injection Hfirst as <- <- <-. unfold writeback_outcome. rewrite Hvalid. simpl.
    repeat split; try reflexivity. intros elements Hel. by exists elements. }
  assert (Hcases :
    (exists sf e, rewrite_source_file writer (default [] (errors (sherrorConfig c))) sf = inl e
                  /\ project c1 = Some sf /\ r1 = inl e)
    \/ (exists sf sf', rewrite_source_file writer (default [] (errors (sherrorConfig c))) sf
                       = inr sf'
                       /\ project c1 = Some sf' /\ d1 = Some sf' /\ r1 = inr tt)
    \/ (project c1 = None /\ d1 = None
        /\ r1 = inl (Error "File not found: sherror.config.ts"))).
  { destruct (project c) as [sf |] eqn:Hproject.
    - destruct (rewrite_source_file writer (default [] (errors (sherrorConfig c))) sf)
        as [e | sf'] eqn:Hsf; injection Hfirst as <- <- <-.
      + left. by exists sf, e.
      + right; left. by exists sf, sf'.
    - destruct d as [sf |].
      + destruct (rewrite_source_file writer (default [] (errors (sherrorConfig c))) sf)
          as [e | sf'] eqn:Hsf; injection Hfirst as <- <- <-.
        * left. by exists sf, e.
        * right; left. by exists sf, sf'.
      + injection Hfirst as <- <- <-. right; right. by rewrite Hproject. }
  assert (Hcfg : sherrorConfig c1 = sherrorConfig c).
  { destruct (project c) as [sf |]; [| destruct d as [sf |]];
      try destruct (rewrite_source_file writer _ _); by injection Hfirst as <- <- <-. }
  unfold writeback_outcome. rewrite Hcfg, Hvalid.
  destruct Hcases as [(sf & e & Hsf & Hp & ->) | [(sf & sf' & Hsf & Hp & -> & ->)
                                                 | (Hp & -> & ->)]];
    rewrite Hp.
  - rewrite Hsf. simpl. repeat split; try reflexivity.
    intros elements Hel. by exists elements.
  - destruct (rewrite_source_file_again _ _ _ Hsf) as (sf'' & Hsf' & Heq).
    rewrite Hsf'. simpl.
    split; [done |]. split; [done |]. split; [intros Hwriter; by rewrite Heq |].
    split; [done |].
    intros elements Hel.
    destruct (rewrite_source_file_elements writer _ _ _ Hsf) as (before & _ & Hafter).
    destruct (rewrite_source_file_elements writer _ _ _ Hsf') as (again & Hagain & Hafter').
    rewrite Hafter in Hel, Hagain. injection Hel as <-. injection Hagain as <-.
    eexists. split; [exact Hafter' |].
    destruct (rewrite_elements_spec writer (default [] (errors (sherrorConfig c))) before)
      as (Hlen1 & _ & _).
    destruct (rewrite_elements_spec writer (default [] (errors (sherrorConfig c)))
                (rewrite_elements writer (default [] (errors (sherrorConfig c))) before))
      as (Hlen2 & Hstale & _).
    split; [lia | exact Hstale].
  - simpl. rewrite Hp. repeat split; first [reflexivity | exact Hcfg | idtac].
    intros elements Hel. discriminate Hel.
Qed.

End WritebackFacts.

(** ** Literals read back *)

Section ReaderFacts.

Import Reader.

Lemma is_line_feed_eq (c : ascii) : is_line_feed c = true -> c = ascii_of_nat 10.
Proof. by_ascii c. Qed.

Lemma is_blank_cases (c : ascii) :
  is_blank c = true -> c = " "%char \/ c = ascii_of_nat 9.
Proof. by_ascii c; intros _; [by right | by left]. Qed.

(** The tokens of a text do not depend on the blanks that follow its line
    feeds. *)
Lemma scan_unindent_from (s : string) :
  (forall mode : Mode, scan mode (unindent_from false s) = scan mode s)
  /\ scan Between (unindent_from true s) = scan Between s.
Proof.
  induction s as [| c r [IH1 IH2]]; [done |].
  assert (Hstep : forall mode : Mode,
             scan mode (String c (unindent_from (is_line_feed c) r)) = scan mode (String c r)).
  { intros mode. destruct (is_line_feed c) eqn:Hlf.
    - apply is_line_feed_eq in Hlf as ->.
      destruct mode; simpl; rewrite ?IH2; reflexivity.
    - destruct mode as [| | | | todo value]; simpl; rewrite ?IH1; try reflexivity.
      destruct (hex_value c) as [digit |]; [| reflexivity].
      destruct todo as [| [| todo]]; rewrite ?IH1; reflexivity. }
  split; [exact Hstep |].
  simpl unindent_from. destruct (is_blank c) eqn:Hblank; [| apply Hstep].
  apply is_blank_cases in Hblank as [-> | ->]; simpl; by rewrite IH2.
Qed.

Lemma read_literal_unindent (text : string) :
  read_literal (unindent text) = read_literal text.
Proof.
  unfold read_literal, unindent. by rewrite (proj1 (scan_unindent_from text)).
Qed.

(** A word, up to the character that ends it. *)
Lemma scan_in_word (w : string) (x : ascii) (rest : string) :
  string_forall is_word_char w = true -> is_word_char x = false ->
  scan InWord (w +:+ String x rest) = cons (TWord w) <$> scan Between (String x rest).
Proof.
  intros Hw Hx. induction w as [| c w IH].
  - simpl. by rewrite Hx.
  - simpl in Hw. apply andb_prop in Hw as [Hc Hw].
    change (String c w +:+ String x rest) with (String c (w +:+ String x rest)).
    change (scan InWord (String c (w +:+ String x rest)))
      with (if is_word_char c then push c <$> scan InWord (w +:+ String x rest)
            else close InWord
                   (if is_white_space c then scan Between (w +:+ String x rest)
                    else if is_punctuator c
                         then cons (TPunctuator c) <$> scan Between (w +:+ String x rest)
                         else if (code c =? 34)%nat then scan InString (w +:+ String x rest)
                              else None)).
    rewrite Hc, (IH Hw). by destruct (scan Between (String x rest)).
Qed.

Lemma scan_word (w : string) (x : ascii) (rest : string) :
  string_forall is_word_char w = true -> w <> EmptyString -> is_word_char x = false ->
  scan Between (w +:+ String x rest) = cons (TWord w) <$> scan Between (String x rest).
Proof.
  intros Hw Hne Hx. destruct w as [| c w]; [done |].
  simpl in Hw. apply andb_prop in Hw as [Hc Hw].
  change (String c w +:+ String x rest) with (String c (w +:+ String x rest)).
  change (scan Between (String c (w +:+ String x rest)))
    with (if is_word_char c then push c <$> scan InWord (w +:+ String x rest)
          else close Between
                 (if is_white_space c then scan Between (w +:+ String x rest)
                  else if is_punctuator c
                       then cons (TPunctuator c) <$> scan Between (w +:+ String x rest)
                       else if (code c =? 34)%nat then scan InString (w +:+ String x rest)
                            else None)).
  rewrite Hc, (scan_in_word w x rest Hw Hx). by destruct (scan Between (String x rest)).
Qed.

(** One escaped character is read back as the character. *)
Lemma scan_escaped (c : ascii) (tail : string) :
  scan InString (json_escape c +:+ tail) = push c <$> scan InString tail.
Proof. destruct c as [[|] [|] [|] [|] [|] [|] [|] [|]]; reflexivity. Qed.

Lemma scan_escaped_string (s rest : string) :
  scan InString (json_escape_string s +:+ quote +:+ rest)
  = cons (TString s) <$> scan Between rest.
Proof.
  induction s as [| c s IH]; [reflexivity |].
  change (json_escape_string (String c s)) with (json_escape c +:+ json_escape_string s).
  rewrite append_assoc, scan_escaped, IH. by destruct (scan Between rest).
Qed.

Lemma scan_string_literal (s rest : string) :
  scan Between (JSON_stringify_string s +:+ rest) = cons (TString s) <$> scan Between rest.
Proof.
  unfold JSON_stringify_string. rewrite !append_assoc.
  change (quote +:+ json_escape_string s +:+ quote +:+ rest)
    with (String (ascii_of_nat 34) (json_escape_string s +:+ quote +:+ rest)).
  change (scan Between (String (ascii_of_nat 34) (json_escape_string s +:+ quote +:+ rest)))
    with (scan InString (json_escape_string s +:+ quote +:+ rest)).
  by rewrite scan_escaped_string.
Qed.

Lemma string_of_uint_digits (d : Decimal.uint) :
  string_forall is_digit (NilEmpty.string_of_uint d) = true.
Proof. induction d; simpl; done. Qed.

Lemma string_of_Z_chars (z : Z) : string_forall is_number_char (string_of_Z z) = true.
Proof.
  assert (Hdigits : forall d, string_forall is_number_char (NilZero.string_of_uint d) = true).
  { intros d. eapply string_forall_impl; [| destruct d; try apply string_of_uint_digits; done].
    intros c Hc. unfold is_number_char. by rewrite Hc. }
  unfold string_of_Z. destruct z as [| p | p]; simpl; [done | apply Hdigits |].
  apply Hdigits.
Qed.

Lemma string_of_Z_not_empty (z : Z) : string_of_Z z <> EmptyString.
Proof.
  unfold string_of_Z. destruct z as [| p | p]; simpl; [done | | done].
  pose proof (Unsigned.to_uint_nonnil p). by destruct (Pos.to_uint p).
Qed.

Lemma int_of_string_of_Z (z : Z) :
  NilZero.int_of_string (string_of_Z z) = Some (Z.to_int z).
Proof.
  unfold string_of_Z. apply NilZero.isi.
  - destruct z as [| p | p]; simpl; try done.
    intros [= H]. by apply (Unsigned.to_uint_nonnil p).
  - destruct z as [| p | p]; simpl; try done.
    intros [= H]. by apply (Unsigned.to_uint_nonnil p).
Qed.

Lemma number_is_not_a_name (s : string) :
  string_forall is_number_char s = true ->
  String.eqb s "undefined" = false /\ String.eqb s "null" = false.
Proof.
  destruct s as [| c r]; [done |]. simpl. intros [Hc _]%andb_prop.
  split.
  - destruct (Ascii.eqb_spec c "u") as [-> | _]; [discriminate Hc | done].
  - destruct (Ascii.eqb_spec c "n") as [-> | _]; [discriminate Hc | done].
Qed.

Lemma number_char_is_word_char (c : ascii) :
  is_number_char c = true -> is_word_char c = true.
Proof. by_ascii c. Qed.

Lemma scan_number (z : Z) (x : ascii) (rest : string) :
  is_word_char x = false ->
  scan Between (string_of_Z z +:+ String x rest)
  = cons (TWord (string_of_Z z)) <$> scan Between (String x rest).
Proof.
  intros Hx. apply scan_word; [| apply string_of_Z_not_empty | exact Hx].
  eapply string_forall_impl; [apply number_char_is_word_char | apply string_of_Z_chars].
Qed.

Lemma scan_prettyJSON (v : option string) (x : ascii) (rest : string) :
  is_word_char x = false ->
  scan Between (prettyJSON v +:+ String x rest)
  = cons (value_token v) <$> scan Between (String x rest).
Proof.
  intros Hx. destruct v as [s |]; simpl prettyJSON; simpl value_token.
  - apply scan_string_literal.
  - by apply scan_word.
Qed.

Lemma value_of_number (z : Z) : value_of (TWord (string_of_Z z)) = Some (VNumber z).
Proof.
  unfold value_of.
  destruct (number_is_not_a_name _ (string_of_Z_chars z)) as [-> ->].
  by rewrite int_of_string_of_Z, DecimalZ.of_to.
Qed.

Lemma value_of_value_token (v : option string) : value_of (value_token v) = Some (read_back v).
Proof. by destruct v. Qed.

(** The tokens of the literal written for an entry. *)
Lemma scan_objText (error : SherrorError) :
  scan Between (objText error) = Some (literal_tokens error).
Proof.
  assert (Hfield : forall (name rest : string),
             string_forall is_word_char name = true -> name <> EmptyString ->
             scan Between (nl +:+ "  " +:+ name +:+ ": " +:+ rest)
             = (fun tokens => TWord name :: TPunctuator ":" :: tokens) <$> scan Between rest).
  { intros name rest Hname Hne.
    change (scan Between (nl +:+ "  " +:+ name +:+ ": " +:+ rest))
      with (scan Between (name +:+ String ":" (String " " rest))).
    rewrite scan_word by done.
    change (scan Between (String ":" (String " " rest)))
      with (cons (TPunctuator ":") <$> scan Between rest).
    by destruct (scan Between rest). }
  assert (Hcomma : forall rest : string,
             scan Between ("," +:+ rest) = cons (TPunctuator ",") <$> scan Between rest)
    by reflexivity.
  assert (Hnumber : forall (z : Z) (rest : string),
             scan Between (string_of_Z z +:+ "," +:+ rest)
             = cons (TWord (string_of_Z z)) <$> scan Between ("," +:+ rest))
    by (intros z rest; exact (scan_number z "," rest eq_refl)).
  assert (Hvalue : forall (v : option string) (rest : string),
             scan Between (prettyJSON v +:+ "," +:+ rest)
             = cons (value_token v) <$> scan Between ("," +:+ rest))
    by (intros v rest; exact (scan_prettyJSON v "," rest eq_refl)).
  assert (Hlast : forall v : option string,
             scan Between (prettyJSON v +:+ nl +:+ "}")
             = Some [value_token v; TPunctuator "}"]).
  { intros v. change (nl +:+ "}") with (String (ascii_of_nat 10) "}").
    by rewrite scan_prettyJSON. }
  unfold objText, literal_tokens.
  change ("{" +:+ nl +:+ "  error_code: " +:+ ?x)
    with (String "{" (nl +:+ "  " +:+ "error_code" +:+ ": " +:+ x)).
  change (scan Between (String "{" ?x)) with (cons (TPunctuator "{") <$> scan Between x).
  change (nl +:+ "  app_message: " +:+ ?x)
    with (nl +:+ "  " +:+ "app_message" +:+ ": " +:+ x).
  change (nl +:+ "  post_title: " +:+ ?x)
    with (nl +:+ "  " +:+ "post_title" +:+ ": " +:+ x).
  change (nl +:+ "  post_body: " +:+ ?x)
    with (nl +:+ "  " +:+ "post_body" +:+ ": " +:+ x).
  rewrite (Hfield "error_code"), Hnumber, Hcomma by done.
  rewrite (Hfield "app_message"), Hvalue, Hcomma by done.
  rewrite (Hfield "post_title"), Hvalue, Hcomma by done.
  rewrite (Hfield "post_body") by done.
  destruct (truthy (_discussion_link error)).
  - rewrite !append_assoc.
    change (nl +:+ "  _discussion_link: " +:+ ?x)
      with (nl +:+ "  " +:+ "_discussion_link" +:+ ": " +:+ x).
    rewrite Hvalue, Hcomma, (Hfield "_discussion_link"), Hlast by done.
    reflexivity.
  - change (prettyJSON (post_body error) +:+ EmptyString +:+ nl +:+ "}")
      with (prettyJSON (post_body error) +:+ nl +:+ "}").
    rewrite Hlast. reflexivity.
Qed.

(** The literal written for an entry is read back as its fields, in the
    order of the template. *)
Lemma read_objText (error : SherrorError) :
  read_literal (objText error) = Some (literal_fields error).
Proof.
  unfold read_literal. rewrite scan_objText.
  unfold literal_tokens, literal_fields.
  change (is_token "{" (TPunctuator "{")) with true. cbv iota.
  cbn [app read_fields name_of is_token negb ascii_eqb Ascii.eqb Bool.eqb].
  rewrite value_of_number. cbn [value_of]. rewrite !value_of_value_token.
  destruct (truthy (_discussion_link error)); cbn; rewrite ?value_of_value_token; reflexivity.
Qed.

(** Whatever the indentation of its lines, the literal of an entry is read
    back as its fields. *)
Lemma read_indented_literal (error : SherrorError) (text : string) :
  unindent text = unindent (objText error) ->
  read_literal text = Some (literal_fields error).
Proof.
  intros Heq. by rewrite <- read_literal_unindent, Heq, read_literal_unindent, read_objText.
Qed.

End ReaderFacts.

(** ** The literals of the artifact *)

Section LiteralFacts.

Variable writer : Writer.

(** After a write-back that succeeds, the element of the artifact at the
    index of each entry is what the writer has made of its literal. *)
Lemma writeback_elements (World : Type) (s : State World) :
  (writebackConfig World writer s).2 = inr tt ->
  exists (sf : SourceFile) (elements : list string) (errs : list SherrorError),
    disk (writebackConfig World writer s).1 = Some sf
    /\ errors (sherrorConfig (this s)) = Some errs
    /\ Reader.config_elements sf = Some elements
    /\ forall (i : nat) (error : SherrorError),
         errs !! i = Some error ->
         exists text : string, elements !! i = Some text /\ written writer error text.
Proof.
  intros Hok.
  pose proof (writeback_outcome_run World writer s) as Hrun. rewrite Hok in Hrun.
  unfold writeback_outcome in Hrun.
  destruct (negb (truthy (category_name (sherrorConfig (this s))))
            || negb (defined (errors (sherrorConfig (this s))))) eqn:Hvalid;
    [discriminate Hrun |].
  apply orb_false_elim in Hvalid as [_ Herrs]. apply negb_false_iff in Herrs.
  destruct (errors (sherrorConfig (this s))) as [errs |]; [| done].
  destruct (match project (this s) with Some sf => Some sf | None => disk s end)
    as [sf |]; [| discriminate Hrun].
  destruct (rewrite_source_file writer (default [] (Some errs)) sf) as [e | sf'] eqn:Hsf;
    [discriminate Hrun |].
  injection Hrun as _ Hdisk.
  destruct (rewrite_source_file_elements writer _ _ _ Hsf) as (elements & _ & Hel).
  exists sf', (rewrite_elements writer errs elements), errs.
  split; [done |]. split; [done |]. split; [exact Hel |].
  intros i error Hi.
  destruct (rewrite_elements_spec writer errs elements) as (_ & _ & Hin).
  by apply Hin.
Qed.

End LiteralFacts.

(** C5: the literal of an entry, whatever the indentation of its lines, is
    read back as the fields code, message, title, body, then the link when
    the entry has one, in that order; an entry without a link is read back
    without the link field; and after a write-back that succeeds, with a
    writer that changes nothing but the indentation of the literals, the
    element of the artifact at the index of each entry is what the writer
    has made of the literal of the entry and is read back as these
    fields. *)
Theorem writeback_literal (World : Type) (writer : Writer) :
  (forall (error : SherrorError) (text : string),
      unindent text = unindent (objText error) ->
      Reader.read_literal text = Some (literal_fields error)
      /\ fst <$> literal_fields error
         = ["error_code"; "app_message"; "post_title"; "post_body"]
           ++ (if truthy (_discussion_link error) then ["_discussion_link"] else []))
  /\ (forall error : SherrorError,
        truthy (_discussion_link error) = false ->
        Reader.field "_discussion_link" (literal_fields error) = None)
  /\ (indents_only writer ->
      forall s : State World,
        (writebackConfig World writer s).2 = inr tt ->
        exists (sf : SourceFile) (elements : list string) (errs : list SherrorError),
          disk (writebackConfig World writer s).1 = Some sf
          /\ errors (sherrorConfig (this s)) = Some errs
          /\ Reader.config_elements sf = Some elements
          /\ forall (i : nat) (error : SherrorError),
               errs !! i = Some error ->
               exists text : string,
                 elements !! i = Some text
                 /\ written writer error text
                 /\ Reader.read_literal text = Some (literal_fields error)).
Proof.
  split; [| split].
  - intros error text Htext. split; [by apply read_indented_literal |].
    unfold literal_fields. by destruct (truthy (_discussion_link error)).
  - intros error Hlink. unfold literal_fields. by rewrite Hlink.
  - intros Hwriter s Hok.
    destruct (writeback_elements writer World s Hok)
      as (sf & elements & errs & Hdisk & Herrs & Hel & Hall).
    exists sf, elements, errs. repeat (split; [done |]).
    intros i error Hi. destruct (Hall i error Hi) as (text & Htext & Hwritten).
    exists text. split; [exact Htext |]. split; [exact Hwritten |].
    apply read_indented_literal. by apply written_unindent with writer.
Qed.

(** C6, as the code has it: a write-back that starts from the client and
    the artifact that a first write-back has left gives the same result and
    the same configuration in memory. When the first write-back has failed,
    the artifact is the same. In any case the [errors] array has as many
    elements as before, those beyond the entries are the same, and,
    provided the writer of ts-morph changes nothing but the indentation of
    the literals it is given, the artifact differs from the one that the
    first write-back has left at most by the indentation of the lines of
    the elements of the [errors] array. *)
Theorem writeback_twice (World : Type) (writer : Writer) (s s' : State World) :
  this s' = this (writebackConfig World writer s).1 ->
  disk s' = disk (writebackConfig World writer s).1 ->
  (writebackConfig World writer s').2 = (writebackConfig World writer s).2
  /\ sherrorConfig (this (writebackConfig World writer s').1)
     = sherrorConfig (this (writebackConfig World writer s).1)
  /\ (forall e : Exn,
        (writebackConfig World writer s).2 = inl e ->
        disk (writebackConfig World writer s').1 = disk (writebackConfig World writer s).1)
  /\ (forall elements : list string,
        disk (writebackConfig World writer s).1 ≫= Reader.config_elements = Some elements ->
        exists elements' : list string,
          disk (writebackConfig World writer s').1 ≫= Reader.config_elements
          = Some elements'
          /\ length elements' = length elements
          /\ forall i : nat,
               default [] (errors (sherrorConfig (this s))) !! i = None ->
               elements' !! i = elements !! i)
  /\ (indents_only writer ->
      unindent_source_file <$> disk (writebackConfig World writer s').1
      = unindent_source_file <$> disk (writebackConfig World writer s).1
      /\ unindent_source_file <$> project (this (writebackConfig World writer s').1)
         = unindent_source_file <$> project (this (writebackConfig World writer s).1)).
Proof.
  intros Hthis Hdisk.
  pose proof (writeback_outcome_run World writer s) as Hfirst.
  pose proof (writeback_outcome_run World writer s') as Hsecond.
  rewrite Hthis, Hdisk in Hsecond.
  pose proof (writeback_outcome_again writer (this s) (disk s)) as Hagain.
  cbv zeta in Hagain. rewrite <- Hfirst in Hagain. simpl in Hagain.
  rewrite <- Hsecond in Hagain. simpl in Hagain.
  destruct Hagain as (Hres & Hcfg & Hsame & Hfailed & Helements).
  split; [exact Hres |]. split; [exact Hcfg |]. split; [exact Hfailed |].
  split; [exact Helements |].
  intros Hwriter. destruct (Hsame Hwriter) as [Hproject Hdisk']. by split.
Qed.

(** ** The writers *)

Section WriterFacts.

Import TsMorph.

Lemma spaces_blank (n : nat) : string_forall is_blank (spaces n) = true.
Proof. induction n as [| n IH]; [done | exact IH]. Qed.

Lemma unindent_from_blanks (blanks rest : string) :
  string_forall is_blank blanks = true ->
  unindent_from true (blanks +:+ rest) = unindent_from true rest.
Proof.
  induction blanks as [| c blanks IH]; [done |].
  simpl. intros [-> Hblanks]%andb_prop. by apply IH.
Qed.

Lemma indent_lines_unindent_from (indentation text : string) (at_start : bool) :
  string_forall is_blank indentation = true ->
  unindent_from at_start (indent_lines indentation text) = unindent_from at_start text.
Proof.
  intros Hblank. revert at_start. induction text as [| c r IH]; intros at_start; [done |].
  change (indent_lines indentation (String c r))
    with (String c
            (if is_line_feed c then
               match r with
               | EmptyString => EmptyString
               | String c' _ =>
                   if is_line_feed c' then indent_lines indentation r
                   else indentation +:+ indent_lines indentation r
               end
             else indent_lines indentation r)).
  destruct (is_line_feed c) eqn:Hlf.
  - apply is_line_feed_eq in Hlf as ->. destruct at_start; simpl.
    all: f_equal; destruct r as [| c' r']; [done |];
      destruct (is_line_feed c'); rewrite ?unindent_from_blanks by done; apply IH.
  - simpl. rewrite Hlf. destruct (at_start && is_blank c); by rewrite IH.
Qed.

Lemma indent_lines_unindent (width : nat) (text : string) :
  unindent (indent_lines (spaces width) text) = unindent text.
Proof. apply indent_lines_unindent_from, spaces_blank. Qed.

Lemma lines_writer_indents_only (width : nat) : indents_only (lines_writer width).
Proof. intros elements error. split; [intros index |]; apply indent_lines_unindent. Qed.

Lemma one_line_writer_indents_only (line child : nat) :
  indents_only (one_line_writer line child).
Proof. intros elements error. split; [intros index |]; apply indent_lines_unindent. Qed.

Lemma spaces_app_inj (n m : nat) (c c' : ascii) (x x' : string) :
  c <> " "%char -> c' <> " "%char ->
  spaces n +:+ String c x = spaces m +:+ String c' x' -> n = m.
Proof.
  intros Hc Hc'. revert m. induction n as [| n IH]; intros [| m]; simpl; intros Heq.
  - done.
  - injection Heq as -> _. done.
  - injection Heq as <- _. done.
  - injection Heq as Heq. f_equal. by apply IH.
Qed.

Lemma spaces_snoc (n : nat) (x : string) :
  spaces n +:+ String " " x = spaces (S n) +:+ x.
Proof. induction n as [| n IH]; simpl; [done | by rewrite IH]. Qed.

End WriterFacts.

(** ** Scenarios *)

Section Scenarios.

Import Examples.

(** One entry whose link points to discussion 27, which has the same title
    and body: the turn sends the fetch only, and the run does not write
    back. *)
Lemma sync_skips_identical_discussion_witness :
  let s := state platform27 [error1 (Some link27)] ["{}"] in
  sync_entry Platform.World Platform.fetch "polyseam" "sherror" "R_1" "C_sherror" 0
    (error1 (Some link27)) false s
  = (after s platform27 (sherrorConfig (this s))
       [Request (GetDiscussion "polyseam" "sherror" (Num 27))
          (inr (Some (Some discussion27)))],
     inr false)
  /\ exists evs : list Event,
       trace (Platform.sync s).1 = trace s ++ evs
       /\ count is_update evs = 0%nat
       /\ count is_writeback evs = 0%nat.
Proof.
  intros s.
  destruct (sync_skips_identical_discussion Platform.World Platform.fetch Platform.origin Platform.writer)
    as [Hentry Hrun].
  split.
  - apply (Hentry "polyseam" "sherror" "R_1" "C_sherror" 0%nat (error1 (Some link27))
             false s link27 (Num 27) discussion27 platform27); reflexivity.
  - destruct (Hrun s) as (evs & Htrace & _ & Hquiet).
    exists evs. split; [exact Htrace |].
    assert (Hevs : evs
                   = [Request (RepoInfo "polyseam" "sherror") (inr (Some repo));
                      Log "Using existing category: sherror-example (C_sherror)";
                      Request (GetDiscussion "polyseam" "sherror" (Num 27))
                        (inr (Some (Some discussion27)))])
      by (symmetry; exact Htrace).
    split; [by rewrite Hevs | apply Hquiet; by rewrite Hevs].
Defined.

(** One entry without a link, in a category without discussions: one
    discussion is created, its URL is in the entry when the write-back is
    invoked, and the write-back is invoked once. *)
Lemma sync_writes_back_once_witness :
  let s := state (platform [] [] 10) [error1 None] ["{}"] in
  exists evs : list Event,
    trace (Platform.sync s).1 = trace s ++ evs
    /\ count is_writeback evs = 1%nat
    /\ evs !! 3%nat = Some (Writeback (Some [error1 (Some (Platform.discussion_url 1))]))
    /\ created_urls (take 3 evs) = [Platform.discussion_url 1].
Proof.
  intros s.
  destruct (sync_writes_back_once Platform.World Platform.fetch Platform.origin Platform.writer s)
    as (evs & Htrace & _ & Hinvoked & Hdone).
  exists evs. split; [exact Htrace |].
  assert (Hevs : evs
                 = [Request (RepoInfo "polyseam" "sherror") (inr (Some repo));
                    Log "Using existing category: sherror-example (C_sherror)";
                    Request (CreateDiscussion "R_1" "C_sherror" "Error 1"
                               "if this happens, do that")
                      (inr (Platform.discussion_url 1));
                    Writeback (Some [error1 (Some (Platform.discussion_url 1))]);
                    Debug "No 'export default' found"])
    by (symmetry; exact Htrace).
  split; [| by rewrite Hevs].
  rewrite (Hdone eq_refl). by rewrite Hevs.
Defined.

(** C2 fails as stated: two entries without a link, and a platform that
    accepts one mutation. The first discussion is created, the second
    creation fails, and the run ends without any write-back: the link just
    created is only in memory. *)
Lemma sync_aborted_after_creation :
  let s := state (platform [] [] 1) [error1 None; error2 None] ["{}"; "{}"] in
  (Platform.sync s).2
  = inl (Error "GitHub GraphQL error 403: API rate limit exceeded")
  /\ created_urls (trace (Platform.sync s).1) = [Platform.discussion_url 1]
  /\ count is_writeback (trace (Platform.sync s).1) = 0%nat
  /\ errors (sherrorConfig (this (Platform.sync s).1))
     = Some [error1 (Some (Platform.discussion_url 1)); error2 None]
  /\ disk (Platform.sync s).1 = disk s.
Proof. repeat split; reflexivity. Qed.

(** A category name that the repository does not have. *)
Lemma sync_category_not_found_witness :
  let s := mkState (platform [] [] 10)
             {| ghToken := "token";
                sherrorConfig := {| category_name := Some "errors";
                                    errors := Some [error1 None];
                                    printer := None |};
                project := None |}
             (Some (config_file ["{}"])) [] in
  let message := category_not_found_message "errors" "polyseam" "sherror"
                   (discussionCategories repo) in
  Platform.sync s
  = (mkState (platform [] [] 10) (this s) (disk s)
       [Request (RepoInfo "polyseam" "sherror") (inr (Some repo)); Log message],
     inl (category_not_found "errors"))
  /\ message
     = message_before "errors" "polyseam" "sherror"
       +:+ join nl ["- General"; "- sherror-example"]
       +:+ message_after "errors".
Proof.
  intros s message.
  apply (sync_category_not_found Platform.World Platform.fetch Platform.origin Platform.writer
           s "errors" "polyseam" "sherror" [error1 None] repo (platform [] [] 10));
    try reflexivity.
  repeat constructor; simpl; discriminate.
Defined.

(** Three discussions, three linked entries, no failure: the three are
    deleted, the three links are removed, and the write-back is invoked
    once. *)
Lemma clear_deletes_then_strips_witness :
  let s := state (platform three_discussions [] 10)
             [error1 (Some (Platform.discussion_url 1));
              error2 (Some (Platform.discussion_url 2));
              error3 (Some (Platform.discussion_url 3))] ["{}"; "{}"; "{}"] in
  exists evs : list Event,
    trace (Platform.clear s).1 = trace s ++ evs
    /\ deleted_ids evs = ["D_1"; "D_2"; "D_3"]
    /\ errors (sherrorConfig (this (Platform.clear s).1))
       = Some [error1 None; error2 None; error3 None]
    /\ count is_writeback evs = 1%nat
    /\ Platform.discussions (world (Platform.clear s).1) = [].
Proof.
  intros s.
  destruct (clear_deletes_then_strips Platform.World Platform.fetch Platform.origin Platform.writer s)
    as (evs & Htrace & Hclear & _).
  exists evs. split; [exact Htrace |].
  assert (Hevs : evs = trace (Platform.clear s).1) by exact (eq_sym Htrace).
  destruct (Hclear three_discussions) as (Hdeleted & Hstripped & Hcount & _).
  - rewrite Hevs. reflexivity.
  - discriminate.
  - rewrite Hevs. reflexivity.
  - split; [exact Hdeleted |]. split; [exact Hstripped |]. split; [exact Hcount |].
    reflexivity.
Defined.

(** C9 fails as stated. With one discussion in the category, deleted
    without failure, and no local link, the write-back is not invoked. With
    no discussion in the category, [clear] returns at once and an entry
    keeps its link. *)
Lemma clear_without_writeback :
  let s1 := state (platform [{| node_id := "D_1"; node_number := 1;
                                node_title := "Error 1" |}] [] 10)
              [error1 None] ["{}"] in
  let s2 := state (platform [] [] 10) [error1 (Some (Platform.discussion_url 1))] ["{}"] in
  ((Platform.clear s1).2 = inr tt
   /\ deleted_ids (trace (Platform.clear s1).1) = ["D_1"]
   /\ count is_failed_delete (trace (Platform.clear s1).1) = 0%nat
   /\ count is_writeback (trace (Platform.clear s1).1) = 0%nat)
  /\ ((Platform.clear s2).2 = inr tt
      /\ errors (sherrorConfig (this (Platform.clear s2).1))
         = Some [error1 (Some (Platform.discussion_url 1))]
      /\ count is_writeback (trace (Platform.clear s2).1) = 0%nat).
Proof. repeat split; reflexivity. Qed.

(** A write-back run twice on the example file. *)
Lemma writeback_twice_witness :
  let s := state (platform [] [] 10)
             [error1 (Some link27); error2 None] ["{}"] in
  let s' := (Platform.writebackConfig s).1 in
  (Platform.writebackConfig s).2 = inr tt
  /\ (Platform.writebackConfig s').2 = inr tt
  /\ unindent_source_file <$> disk (Platform.writebackConfig s').1
     = unindent_source_file <$> disk s'
  /\ Reader.config_elements <$> disk s'
     = Some (Some [TsMorph.indent_lines "    " (objText (error1 (Some link27)));
                   TsMorph.indent_lines "    " (objText (error2 None))])
  /\ exists elements' : list string,
       disk (Platform.writebackConfig s').1 ≫= Reader.config_elements = Some elements'
       /\ length elements' = 2%nat.
Proof.
  intros s s'.
  destruct (writeback_twice Platform.World Platform.writer s s' eq_refl eq_refl)
    as (Hres & _ & _ & Helements & Hsame).
  destruct (Hsame (lines_writer_indents_only 4)) as [Hdisk _].
  split; [reflexivity |]. split; [exact Hres |]. split; [exact Hdisk |].
  split; [reflexivity |].
  destruct (Helements _ eq_refl) as (elements' & Hel & Hlen & _).
  by exists elements'.
Defined.

(** C6 fails as stated. The array literal of the file is empty and on one
    line, indented by two columns, the children of the array being indented
    by six; the configuration has two entries. The first write-back adds
    the two literals, indented as children of the array; the second
    replaces them, and indents the first one by the indentation of the line
    of the array, on which it starts: the artifact is not the same. *)
Lemma writeback_twice_not_identical :
  let writer := TsMorph.one_line_writer 2 6 in
  let s := state (platform [] [] 10) [error1 None; error2 None] [] in
  let s1 := (writebackConfig Platform.World writer s).1 in
  let s2 := (writebackConfig Platform.World writer s1).1 in
  (writebackConfig Platform.World writer s).2 = inr tt
  /\ (writebackConfig Platform.World writer s1).2 = inr tt
  /\ sherrorConfig (this s1) = sherrorConfig (this s)
  /\ Reader.config_elements <$> disk s1
     = Some (Some [TsMorph.indent_lines "      " (objText (error1 None));
                   TsMorph.indent_lines "      " (objText (error2 None))])
  /\ Reader.config_elements <$> disk s2
     = Some (Some [TsMorph.indent_lines "  " (objText (error1 None));
                   TsMorph.indent_lines "      " (objText (error2 None))])
  /\ disk s2 <> disk s1.
Proof.
  repeat split; try reflexivity.
  intros Heq. apply (f_equal (fmap Reader.config_elements)) in Heq.
  vm_compute in Heq. discriminate Heq.
Qed.

(** The same holds whatever the two indentations, as soon as they differ. *)
Lemma writeback_twice_differs (line child : nat) :
  line <> child ->
  let writer := TsMorph.one_line_writer line child in
  let s := state (platform [] [] 10) [error1 None; error2 None] [] in
  let s1 := (writebackConfig Platform.World writer s).1 in
  let s2 := (writebackConfig Platform.World writer s1).1 in
  disk s2 <> disk s1.
Proof.
  intros Hne writer s s1 s2 Heq.
  apply (f_equal (fmap Reader.config_elements)) in Heq.
  assert (H1 : Reader.config_elements <$> disk s1
               = Some (Some [TsMorph.indent_lines (TsMorph.spaces child) (objText (error1 None));
                             TsMorph.indent_lines (TsMorph.spaces child) (objText (error2 None))]))
    by (vm_compute; reflexivity).
  assert (H2 : Reader.config_elements <$> disk s2
               = Some (Some [TsMorph.indent_lines (TsMorph.spaces line) (objText (error1 None));
                             TsMorph.indent_lines (TsMorph.spaces child) (objText (error2 None))]))
    by (vm_compute; reflexivity).
  rewrite H1, H2 in Heq. injection Heq as Heq.
  rewrite (spaces_snoc line), (spaces_snoc (S line)) in Heq.
  rewrite (spaces_snoc child), (spaces_snoc (S child)) in Heq.
  apply spaces_app_inj in Heq; [lia | done | done].
Qed.
(** The literals of the example entries, written back and read again. *)
Lemma writeback_literal_witness :
  let s := state (platform [] [] 10) [error1 (Some link27); error2 None] ["{}"] in
  Reader.read_literal (TsMorph.indent_lines "    " (objText (error2 None)))
  = Some (literal_fields (error2 None))
  /\ Reader.field "_discussion_link" (literal_fields (error2 None)) = None
  /\ Reader.field "_discussion_link" (literal_fields (error1 (Some link27)))
     = Some (Reader.VString link27)
  /\ exists (sf : SourceFile) (elements : list string) (text : string),
       disk (Platform.writebackConfig s).1 = Some sf
       /\ Reader.config_elements sf = Some elements
       /\ elements !! 1%nat = Some text
       /\ Reader.read_literal text = Some (literal_fields (error2 None)).
Proof.
  intros s.
  destruct (writeback_literal Platform.World Platform.writer) as (Hread & Habsent & Hwritten).
  split; [apply Hread, indent_lines_unindent with (width := 4%nat) |].
  split; [by apply Habsent |]. split; [reflexivity |].
  destruct (Hwritten (lines_writer_indents_only 4) s eq_refl)
    as (sf & elements & errs & Hdisk & Herrs & Hel & Hall).
  injection Herrs as <-.
  destruct (Hall 1%nat (error2 None) eq_refl) as (text & Htext & _ & Hfields).
  by exists sf, elements, text.
Defined.

End Scenarios.
